(** * Structural HTML differ: a shallow embedding of [differ.py]

    The development follows the program bottom-up:

    - [difflib]: the part of Python's [difflib.SequenceMatcher] that the
      program calls ([__chain_b], [find_longest_match],
      [get_matching_blocks], [get_opcodes], [ratio]), as an executable model
      that is generic in the element type;
    - [bs4]: the element tree that the HTML parser hands to the program, and
      the traversal operations the program uses on it;
    - [differ]: the program itself ([NodeProfile], the two extractors, the
      three scorers, the combiner and the interpreter);
    - the vocabulary of the properties, the facts about the matcher and
      about the program, and the properties of the specification.

    Conventions.  Sequence positions are natural numbers.  The program
    computes its scores as Python floats (IEEE 754 binary64).  The scores
    are modelled by their exact values, as rationals ([Q], compared with
    [==]): the properties of the scores are properties of these values.
    Where rounding decides a property, the matcher's ratio is also given as
    the program computes it, on binary64 floats ([difflib._calculate_ratio],
    [difflib.float_ratio]).  [diff_score] is modelled from the two parsed
    documents on; reading and parsing the files is the parser's
    business. *)

From stdpp Require Import base decidable option list gmap strings sorting.
From Stdlib Require Import QArith Lqa.
From Stdlib Require PrimFloat Uint63.

Close Scope Q_scope.
Open Scope nat_scope.

(** * Python's [difflib.SequenceMatcher] *)

Module difflib.

(** [Match = namedtuple('Match', 'a b size')]. *)
Definition Match : Type := nat * nat * nat.

(** The tag of an opcode: ['replace'], ['delete'], ['insert'], ['equal']. *)
Inductive tag : Type := Replace | Delete | Insert | Equal.

(** An opcode is the 5-tuple [(tag, i1, i2, j1, j2)]. *)
Definition opcode : Type := tag * nat * nat * nat * nat.

#[global] Instance tag_eq_dec : EqDecision tag.
Proof. solve_decision. Defined.

Section matcher.
Context {A : Type} `{EqDecision A}.

(** ** [__chain_b]

    [b2j] is a Python dict from elements to the ascending list of their
    positions in [b]; it is kept here as an association list in insertion
    order. *)
Abbreviation dict := (list (A * list nat)).

Fixpoint dict_get (d : dict) (x : A) : option (list nat) :=
  match d with
  | [] => None
  | (y, l) :: d' => if decide (x = y) then Some l else dict_get d' x
  end.

(** [b2j.setdefault(elt, []).append(i)]. *)
Fixpoint setdefault_append (d : dict) (elt : A) (i : nat) : dict :=
  match d with
  | [] => [(elt, [i])]
  | (y, l) :: d' =>
      if decide (elt = y) then (y, l ++ [i]) :: d'
      else (y, l) :: setdefault_append d' elt i
  end.

(** [for i, elt in enumerate(b): ...], started at position [i]. *)
Fixpoint chain_loop (i : nat) (b : list A) (b2j : dict) : dict :=
  match b with
  | [] => b2j
  | elt :: b' => chain_loop (S i) b' (setdefault_append b2j elt i)
  end.

(** The program builds the matcher with [isjunk=None] and the default
    [autojunk=True]: no element is junk, and in a [b] of 200 elements or
    more, every element that occurs more than [n // 100 + 1] times is
    "popular" and is deleted from [b2j]. *)
Definition is_popular (n : nat) (entry : A * list nat) : bool :=
  n `div` 100 + 1 <? length entry.2.

Definition chain_b (b : list A) : dict :=
  let b2j := chain_loop 0 b [] in
  let n := length b in
  if 200 <=? n then filter (λ entry, is_popular n entry = false) b2j
  else b2j.

(** [self.bjunk] stays the empty set, so [isbjunk] is constantly false. *)
Definition isbjunk (x : A) : bool := false.

(** ** [find_longest_match] *)

(** [j2lenget(j-1, 0)]; for [j = 0] the key [-1] is never in the dict. *)
Definition j2lenget (j2len : gmap nat nat) (j : nat) : nat :=
  match j with
  | 0 => 0
  | S j' => default 0 (j2len !! j')
  end.

(** The inner loop [for j in b2j.get(a[i], nothing)], with its [continue]
    and [break].  The new start positions [i-k+1] and [j-k+1] are written
    [i + 1 - k] and [j + 1 - k]: [k] never exceeds [i + 1] or [j + 1]
    (lemma [inner_loop_inv]), so the subtraction on naturals is exact. *)
Fixpoint inner_loop (blo bhi i : nat) (j2len : gmap nat nat)
    (js : list nat) (newj2len : gmap nat nat) (best : Match)
    : gmap nat nat * Match :=
  match js with
  | [] => (newj2len, best)
  | j :: js' =>
      if j <? blo then inner_loop blo bhi i j2len js' newj2len best
      else if bhi <=? j then (newj2len, best)
      else
        let k := j2lenget j2len j + 1 in
        let best' := if best.2 <? k then (i + 1 - k, j + 1 - k, k)
                     else best in
        inner_loop blo bhi i j2len js' (<[j := k]> newj2len) best'
  end.

(** The elements of [b] at which [a[i]] occurs, from [b2j]. *)
Definition b2j_get (b2j : dict) (a : list A) (i : nat) : list nat :=
  match a !! i with
  | Some x => default [] (dict_get b2j x)
  | None => []
  end.

(** The outer loop [for i in range(alo, ahi)], over the list of the
    remaining values of [i]. *)
Fixpoint outer_loop (a : list A) (b2j : dict) (blo bhi : nat)
    (rows : list nat) (j2len : gmap nat nat) (best : Match) : Match :=
  match rows with
  | [] => best
  | i :: rows' =>
      let '(newj2len, best') :=
        inner_loop blo bhi i j2len (b2j_get b2j a i) ∅ best in
      outer_loop a b2j blo bhi rows' newj2len best'
  end.

(** [a[i] == b[j]] for positions inside both sequences. *)
Definition same_at (a b : list A) (i j : nat) : bool :=
  match a !! i, b !! j with
  | Some x, Some y => bool_decide (x = y)
  | _, _ => false
  end.

Definition junk_at (b : list A) (j : nat) : bool :=
  match b !! j with
  | Some y => isbjunk y
  | None => false
  end.

(** The two [while] loops that extend the match to the left.  [want_junk]
    is [false] for the first pair of loops ([not isbjunk(..)]) and [true]
    for the second pair.  The recursion is on [besti], which decreases. *)
Fixpoint extend_left (a b : list A) (want_junk : bool) (alo blo : nat)
    (besti bestj bestsize : nat) : Match :=
  match besti, bestj with
  | S i', S j' =>
      if (alo <? besti) && (blo <? bestj)
         && bool_decide (junk_at b j' = want_junk) && same_at a b i' j'
      then extend_left a b want_junk alo blo i' j' (bestsize + 1)
      else (besti, bestj, bestsize)
  | _, _ => (besti, bestj, bestsize)
  end.

(** The two [while] loops that extend the match to the right.  [room] is
    [ahi - (besti + bestsize)], which each round decreases by one and
    which is [0] exactly when the loop condition [besti+bestsize < ahi]
    fails. *)
Fixpoint extend_right_loop (a b : list A) (want_junk : bool) (bhi : nat)
    (room : nat) (besti bestj bestsize : nat) : Match :=
  match room with
  | 0 => (besti, bestj, bestsize)
  | S room' =>
      if (bestj + bestsize <? bhi)
         && bool_decide (junk_at b (bestj + bestsize) = want_junk)
         && same_at a b (besti + bestsize) (bestj + bestsize)
      then extend_right_loop a b want_junk bhi room' besti bestj
             (bestsize + 1)
      else (besti, bestj, bestsize)
  end.

Definition extend_right (a b : list A) (want_junk : bool) (ahi bhi : nat)
    (best : Match) : Match :=
  let '(besti, bestj, bestsize) := best in
  extend_right_loop a b want_junk bhi (ahi - (besti + bestsize))
    besti bestj bestsize.

Definition find_longest_match (a b : list A) (b2j : dict)
    (alo ahi blo bhi : nat) : Match :=
  let best := outer_loop a b2j blo bhi (seq alo (ahi - alo)) ∅ (alo, blo, 0) in
  let '(besti, bestj, bestsize) := best in
  let best := extend_left a b false alo blo besti bestj bestsize in
  let best := extend_right a b false ahi bhi best in
  let '(besti, bestj, bestsize) := best in
  let best := extend_left a b true alo blo besti bestj bestsize in
  extend_right a b true ahi bhi best.

(** ** [get_matching_blocks] *)

(** A pending region [(alo, ahi, blo, bhi)] of the work list. *)
Definition region : Type := nat * nat * nat * nat.

(** The [while queue:] loop.  [queue] is a Python list used as a stack
    ([append] and [pop] at its end); the model keeps it with the end of
    the Python list at the head.  [matching_blocks] is in append order.
    [fuel] bounds the number of rounds; [blocks_loop_fuel] shows that the
    fuel [get_matching_blocks] passes is never used up. *)
Fixpoint blocks_loop (a b : list A) (b2j : dict) (fuel : nat)
    (queue : list region) (matching_blocks : list Match) : list Match :=
  match fuel, queue with
  | S fuel', (alo, ahi, blo, bhi) :: queue' =>
      let x := find_longest_match a b b2j alo ahi blo bhi in
      let '(i, j, k) := x in
      if k =? 0 then blocks_loop a b b2j fuel' queue' matching_blocks
      else
        let queue1 :=
          if (alo <? i) && (blo <? j) then (alo, i, blo, j) :: queue'
          else queue' in
        let queue2 :=
          if (i + k <? ahi) && (j + k <? bhi)
          then (i + k, ahi, j + k, bhi) :: queue1
          else queue1 in
        blocks_loop a b b2j fuel' queue2 (matching_blocks ++ [x])
  | _, _ => matching_blocks
  end.

(** Python orders tuples lexicographically. *)
Definition Match_le (x y : Match) : Prop :=
  let '(i1, j1, k1) := x in
  let '(i2, j2, k2) := y in
  i1 < i2 ∨ (i1 = i2 ∧ (j1 < j2 ∨ (j1 = j2 ∧ k1 ≤ k2))).

#[global] Instance Match_le_dec : RelDecision Match_le.
Proof.
  intros [[i1 j1] k1] [[i2 j2] k2]; unfold Match_le; apply _.
Defined.

(** The loop that collapses adjacent blocks, with [non_adjacent] in append
    order. *)
Fixpoint collapse_loop (i1 j1 k1 : nat) (blocks : list Match)
    (non_adjacent : list Match) : list Match :=
  match blocks with
  | [] =>
      if k1 =? 0 then non_adjacent else non_adjacent ++ [(i1, j1, k1)]
  | (i2, j2, k2) :: blocks' =>
      if (i1 + k1 =? i2) && (j1 + k1 =? j2)
      then collapse_loop i1 j1 (k1 + k2) blocks' non_adjacent
      else
        collapse_loop i2 j2 k2 blocks'
          (if k1 =? 0 then non_adjacent
           else non_adjacent ++ [(i1, j1, k1)])
  end.

Definition get_matching_blocks (a b : list A) : list Match :=
  let la := length a in
  let lb := length b in
  let matching_blocks :=
    blocks_loop a b (chain_b b) (2 * la + 1) [(0, la, 0, lb)] [] in
  let matching_blocks := merge_sort Match_le matching_blocks in
  collapse_loop 0 0 0 matching_blocks [] ++ [(la, lb, 0)].

(** ** [get_opcodes] *)

Fixpoint opcodes_loop (i j : nat) (blocks : list Match)
    (answer : list opcode) : list opcode :=
  match blocks with
  | [] => answer
  | (ai, bj, size) :: blocks' =>
      let answer1 :=
        if (i <? ai) && (j <? bj) then answer ++ [(Replace, i, ai, j, bj)]
        else if i <? ai then answer ++ [(Delete, i, ai, j, bj)]
        else if j <? bj then answer ++ [(Insert, i, ai, j, bj)]
        else answer in
      let i' := ai + size in
      let j' := bj + size in
      let answer2 :=
        if size =? 0 then answer1
        else answer1 ++ [(Equal, ai, i', bj, j')] in
      opcodes_loop i' j' blocks' answer2
  end.

Definition get_opcodes (a b : list A) : list opcode :=
  opcodes_loop 0 0 (get_matching_blocks a b) [].

(** ** [ratio] *)

(** The exact value of [_calculate_ratio(matches, length)]: the rational
    [2 * matches / length], which the library then rounds to a float (see
    [_calculate_ratio] below). *)
Definition calculate_ratio (matches length : nat) : Q :=
  if length =? 0 then 1%Q
  else (2 * inject_Z (Z.of_nat matches) / inject_Z (Z.of_nat length))%Q.

(** [matches = sum(triple[-1] for triple in self.get_matching_blocks())]. *)
Definition matches (a b : list A) : nat :=
  sum_list (map (λ triple : Match, triple.2) (get_matching_blocks a b)).

(** The exact value of [ratio()]. *)
Definition ratio (a b : list A) : Q :=
  calculate_ratio (matches a b) (length a + length b).

Section float_ratio.
Import PrimFloat.

(** Python's conversion of an [int] to a [float], which [2.0 * matches] and
    [... / length] apply to their integer operand; it is exact below
    [2^53], and the lengths of the sequences of a run are far below. *)
Definition float_of_nat (n : nat) : float :=
  of_uint63 (Uint63.of_Z (Z.of_nat n)).

(** [_calculate_ratio(matches, length)] as the library computes it:
<<
    if length:
        return 2.0 * matches / length
    return 1.0
>>
    a product and then a quotient of binary64 floats, each rounded to
    nearest. *)
Definition _calculate_ratio (matches length : nat) : float :=
  if length =? 0 then 1.0%float
  else (2.0 * float_of_nat matches / float_of_nat length)%float.

(** [ratio()] as the library computes it. *)
Definition float_ratio (a b : list A) : float :=
  _calculate_ratio (matches a b) (length a + length b).

End float_ratio.

End matcher.

End difflib.

(** * The parsed document

    The HTML parser (BeautifulSoup over [html.parser]) is an external
    collaborator.  The program uses five of its operations: [name], [get],
    [children], [find] and [find_all]; they are modelled here from their
    documented behaviour on an element tree. *)

Module bs4.

(** An attribute value is a string, or a list of tokens for the
    multi-valued attributes such as [class]. *)
Inductive attr_value : Type :=
  | AttrStr (s : string)
  | AttrList (l : list string).

(** A node of the tree is an element ([Tag]) or something else (text,
    comment, ...), for which [isinstance(c, Tag)] is false. *)
#[warnings="-register-all"]
Inductive node : Type :=
  | Tag (name : string) (attrs : gmap string attr_value)
        (children : list node)
  | NavigableString (text : string).

(** The document object: the list of its top-level nodes. *)
Definition BeautifulSoup : Type := list node.

Definition children (n : node) : list node :=
  match n with
  | Tag _ _ cs => cs
  | NavigableString _ => []
  end.

(** [element.get(key)]: [None] when the attribute is absent. *)
Definition get (n : node) (key : string) : option attr_value :=
  match n with
  | Tag _ attrs _ => attrs !! key
  | NavigableString _ => None
  end.

(** A position in the document: the child indices from the top. *)
Definition path : Type := list nat.

(** All the nodes below [n], in document order, with their positions
    relative to [n]. *)
Fixpoint descendants_at (n : node) : list (path * node) :=
  match n with
  | Tag _ _ cs =>
      (fix go (k : nat) (cs : list node) : list (path * node) :=
         match cs with
         | [] => []
         | c :: cs' =>
             ([k], c) :: map (prod_map (cons k) id) (descendants_at c)
               ++ go (S k) cs'
         end) 0 cs
  | NavigableString _ => []
  end.

(** All the nodes of the document, in document order, with their
    positions. *)
Fixpoint forest_at (k : nat) (cs : list node) : list (path * node) :=
  match cs with
  | [] => []
  | c :: cs' =>
      ([k], c) :: map (prod_map (cons k) id) (descendants_at c)
        ++ forest_at (S k) cs'
  end.

Definition descendants (soup : BeautifulSoup) : list (path * node) :=
  forest_at 0 soup.

(** The node at a position of the document, if there is one. *)
Fixpoint node_at (cs : list node) (p : path) : option node :=
  match p with
  | [] => None
  | k :: p' =>
      match cs !! k, p' with
      | Some c, [] => Some c
      | Some c, _ => node_at (children c) p'
      | None, _ => None
      end
  end.

Definition has_name (names : list string) (n : node) : bool :=
  match n with
  | Tag name _ _ => bool_decide (name ∈ names)
  | NavigableString _ => false
  end.

(** [soup.find_all(names)]: every element whose name is one of [names], in
    document order. *)
Definition find_all_at (soup : BeautifulSoup) (names : list string)
    : list (path * node) :=
  filter (λ pn, has_name names pn.2 = true) (descendants soup).

Definition find_all (soup : BeautifulSoup) (names : list string)
    : list node :=
  (find_all_at soup names).*2.

(** [soup.find(name)]: the first such element, or [None]. *)
Definition find_at (soup : BeautifulSoup) (name : string)
    : option (path * node) :=
  head (find_all_at soup [name]).

Definition find (soup : BeautifulSoup) (name : string) : option node :=
  snd <$> find_at soup name.

End bs4.

(** * The program: [differ.py] *)

Module differ.
Import bs4.

Definition LANDMARK_TAGS : list string :=
  ["header"; "nav"; "main"; "aside"; "footer"; "section"; "article"].
Definition IGNORED_TAGS : list string :=
  ["script"; "style"; "link"; "meta"; "noscript"; "template"].

Definition LANDMARK_WEIGHT : Q := 0.40%Q.
Definition SKELETON_WEIGHT : Q := 0.60%Q.

Definition TAG_WEIGHT : Q := 0.30%Q.
Definition CLASS_WEIGHT : Q := 0.30%Q.
Definition ID_WEIGHT : Q := 0.20%Q.
Definition CHILD_COUNT_WEIGHT : Q := 0.20%Q.

(** The frozen dataclass.  [classes] is a tuple of strings; [child_count]
    is only ever produced by counting, so it is a natural number. *)
Record NodeProfile : Type := mkNodeProfile {
  tag : string;
  id_attr : string;
  classes : list string;
  child_count : nat;
}.

(** The [__eq__] that [@dataclass] generates compares the two objects as
    the tuples [(tag, id_attr, classes, child_count)]; on the [classes]
    tuples this is Python's element-by-element tuple comparison. *)
Fixpoint tuple_eq (xs ys : list string) : bool :=
  match xs, ys with
  | [], [] => true
  | x :: xs', y :: ys' => bool_decide (x = y) && tuple_eq xs' ys'
  | _, _ => false
  end.

Definition NodeProfile_eq (p q : NodeProfile) : bool :=
  bool_decide (tag p = tag q) && bool_decide (id_attr p = id_attr q)
  && tuple_eq (classes p) (classes q)
  && bool_decide (child_count p = child_count q).

Definition is_tag (n : node) : bool :=
  match n with
  | Tag _ _ _ => true
  | NavigableString _ => false
  end.

Definition name (n : node) : string :=
  match n with
  | Tag nm _ _ => nm
  | NavigableString _ => ""
  end.

Definition extract_landmarks (soup : BeautifulSoup) : list string :=
  name <$> filter (λ t, is_tag t = true) (find_all soup LANDMARK_TAGS).

Definition _make_profile (element : node) : NodeProfile :=
  let id_raw := get element "id" in
  let class_raw := get element "class" in
  {| tag := name element;
     id_attr := match id_raw with Some (AttrStr s) => s | _ => "" end;
     classes := match class_raw with Some (AttrList l) => l | _ => [] end;
     child_count :=
       length (filter (λ c, is_tag c = true) (children element)) |}.

Definition ignored (n : node) : bool :=
  negb (is_tag n) || bool_decide (name n ∈ IGNORED_TAGS).

(** The inner loop [for grandchild in child.children]. *)
Fixpoint grandchild_loop (grandchildren : list node)
    (profiles : list NodeProfile) : list NodeProfile :=
  match grandchildren with
  | [] => profiles
  | grandchild :: rest =>
      if ignored grandchild then grandchild_loop rest profiles
      else grandchild_loop rest (profiles ++ [_make_profile grandchild])
  end.

(** The outer loop [for child in body.children]. *)
Fixpoint child_loop (cs : list node) (profiles : list NodeProfile)
    : list NodeProfile :=
  match cs with
  | [] => profiles
  | child :: rest =>
      if ignored child then child_loop rest profiles
      else
        child_loop rest
          (grandchild_loop (children child)
             (profiles ++ [_make_profile child]))
  end.

Definition extract_skeleton (soup : BeautifulSoup) : list NodeProfile :=
  match find soup "body" with
  | Some (Tag _ _ _ as body) => child_loop (children body) []
  | _ => []
  end.

(** The same two loops and the same function, keeping in place of each
    profile the element it is made from and the position of that element in
    the document: [parent] is the position of the element whose children
    the loop walks, [k] the index of the next child. *)
Fixpoint grandchild_sources (parent : path) (k : nat)
    (grandchildren : list node) (sources : list (path * node))
    : list (path * node) :=
  match grandchildren with
  | [] => sources
  | grandchild :: rest =>
      if ignored grandchild
      then grandchild_sources parent (S k) rest sources
      else grandchild_sources parent (S k) rest
             (sources ++ [(parent ++ [k], grandchild)])
  end.

Fixpoint child_sources (parent : path) (k : nat) (cs : list node)
    (sources : list (path * node)) : list (path * node) :=
  match cs with
  | [] => sources
  | child :: rest =>
      if ignored child then child_sources parent (S k) rest sources
      else
        child_sources parent (S k) rest
          (grandchild_sources (parent ++ [k]) 0 (children child)
             (sources ++ [(parent ++ [k], child)]))
  end.

Definition skeleton_sources (soup : BeautifulSoup) : list (path * node) :=
  match find_at soup "body" with
  | Some (parent, (Tag _ _ _ as body)) =>
      child_sources parent 0 (children body) []
  | _ => []
  end.

Definition landmark_diff (old new : list string) : Q :=
  match old, new with
  | [], [] => 0%Q
  | _, _ => (1 - difflib.ratio old new)%Q
  end.

(** [x / y] on Python integers is true division. *)
Definition true_div (x y : Z) : Q := (inject_Z x / inject_Z y)%Q.

(** [0.0 if x == y else 1.0]. *)
Definition mismatch (x y : string) : Q :=
  if decide (x = y) then 0%Q else 1%Q.

Definition node_diff (old new : NodeProfile) : Q :=
  let tag_diff := mismatch (tag old) (tag new) in
  let old_classes : gset string := list_to_set (classes old) in
  let new_classes : gset string := list_to_set (classes new) in
  let class_diff :=
    if decide (old_classes ≠ ∅ ∨ new_classes ≠ ∅)
    then (1 - true_div (Z.of_nat (size (old_classes ∩ new_classes)))
                       (Z.of_nat (size (old_classes ∪ new_classes))))%Q
    else 0%Q in
  let id_diff := mismatch (id_attr old) (id_attr new) in
  let max_children := child_count old `max` child_count new in
  let child_diff :=
    if 0 <? max_children
    then true_div (Z.abs (Z.of_nat (child_count old)
                          - Z.of_nat (child_count new)))
                  (Z.of_nat max_children)
    else 0%Q in
  (tag_diff * TAG_WEIGHT + class_diff * CLASS_WEIGHT + id_diff * ID_WEIGHT
   + child_diff * CHILD_COUNT_WEIGHT)%Q.

#[global] Instance NodeProfile_eq_dec : EqDecision NodeProfile.
Proof. solve_decision. Defined.

(** [l[i1:i2]] for non-negative bounds. *)
Definition slice {X : Type} (l : list X) (i1 i2 : nat) : list X :=
  take (i2 - i1) (drop i1 l).

(** The loop [for k in range(count)] of the ['replace'] branch. *)
Fixpoint replace_loop (old_slice new_slice : list NodeProfile)
    (ks : list nat) (total_diff : Q) : Q :=
  match ks with
  | [] => total_diff
  | k :: ks' =>
      replace_loop old_slice new_slice ks'
        (match old_slice !! k, new_slice !! k with
         | Some o, Some n => total_diff + node_diff o n
         | _, _ => total_diff + 1
         end)%Q
  end.

(** One round of [for op, i1, i2, j1, j2 in matcher.get_opcodes()], on the
    pair [(total_diff, total_positions)]. *)
Definition opcode_step (old new : list NodeProfile)
    (acc : Q * Z) (oc : difflib.opcode) : Q * Z :=
  let '(total_diff, total_positions) := acc in
  let '(op, i1, i2, j1, j2) := oc in
  match op with
  | difflib.Equal =>
      (total_diff, total_positions + (Z.of_nat i2 - Z.of_nat i1))%Z
  | difflib.Replace =>
      let old_slice := slice old i1 i2 in
      let new_slice := slice new j1 j2 in
      let count := length old_slice `max` length new_slice in
      (replace_loop old_slice new_slice (seq 0 count) total_diff,
       (total_positions + Z.of_nat count)%Z)
  | difflib.Insert =>
      let count := (Z.of_nat j2 - Z.of_nat j1)%Z in
      ((total_diff + inject_Z count)%Q, (total_positions + count)%Z)
  | difflib.Delete =>
      let count := (Z.of_nat i2 - Z.of_nat i1)%Z in
      ((total_diff + inject_Z count)%Q, (total_positions + count)%Z)
  end.

Definition skeleton_diff (old new : list NodeProfile) : Q :=
  match old, new with
  | [], [] => 0%Q
  | [], _ | _, [] => 1%Q
  | _, _ =>
      let '(total_diff, total_positions) :=
        fold_left (opcode_step old new) (difflib.get_opcodes old new)
          (0%Q, 0%Z) in
      if (0 <? total_positions)%Z
      then (total_diff / inject_Z total_positions)%Q
      else 0%Q
  end.

(** [diff_score], on the two parsed documents. *)
Definition diff_score (old_soup new_soup : BeautifulSoup) : Q :=
  let l_diff :=
    landmark_diff (extract_landmarks old_soup) (extract_landmarks new_soup) in
  let s_diff :=
    skeleton_diff (extract_skeleton old_soup) (extract_skeleton new_soup) in
  (l_diff * LANDMARK_WEIGHT + s_diff * SKELETON_WEIGHT)%Q.

Definition interpret_score (score : Q) : string :=
  if Qlt_le_dec 0.40%Q score then "Major structural rewrite detected"
  else if Qlt_le_dec 0.15%Q score
       then "Significant layout modifications detected"
       else "Minor structural changes".

End differ.

(** * The vocabulary of the properties *)

Section pairwise_vocabulary.
Context {X : Type} (R : relation X).

(** [R] relates every two elements at different positions of the list. *)
Fixpoint pairwise (l : list X) : Prop :=
  match l with
  | [] => True
  | x :: l' => Forall (R x) l' ∧ pairwise l'
  end.

End pairwise_vocabulary.

Section matcher_vocabulary.
Import difflib.
Context {A : Type} `{EqDecision A}.

(** A candidate match lies inside the window [a[alo:ahi]], [b[blo:bhi]]. *)
Definition in_window (alo ahi blo bhi : nat) (best : Match) : Prop :=
  alo ≤ best.1.1 ∧ blo ≤ best.1.2
  ∧ best.1.1 + best.2 ≤ ahi ∧ best.1.2 + best.2 ≤ bhi.

(** Every run length recorded for the row before [i] fits between the
    window's lower bounds and the position it ends at. *)
Definition row_ok (alo blo bhi i : nat) (j2len : gmap nat nat) : Prop :=
  ∀ j k, j2len !! j = Some k →
    1 ≤ k ∧ k + alo ≤ i ∧ k + blo ≤ j + 1 ∧ j < bhi.

(** The part of the two sequences that a block covers. *)
Definition block_region (x : Match) : region :=
  (x.1.1, x.1.1 + x.2, x.1.2, x.1.2 + x.2).

(** [r1] ends, on both sides, where [r2] starts or earlier. *)
Definition before (r1 r2 : region) : Prop :=
  r1.1.1.2 ≤ r2.1.1.1 ∧ r1.2 ≤ r2.1.2.

Definition apart (r1 r2 : region) : Prop := before r1 r2 ∨ before r2 r1.

Definition proper (r : region) : Prop := r.1.1.1 ≤ r.1.1.2 ∧ r.1.2 ≤ r.2.

Definition within (la lb : nat) (r : region) : Prop :=
  r.1.1.2 ≤ la ∧ r.2 ≤ lb.

(** What the loop maintains: the pending regions and the blocks found so
    far lie inside the sequences and are pairwise apart. *)
Record blocks_inv (la lb : nat) (queue : list region)
    (matching_blocks : list Match) : Prop := {
  inv_proper : Forall proper queue;
  inv_within :
    Forall (within la lb) (queue ++ (block_region <$> matching_blocks));
  inv_size : Forall (λ x, 0 < x.2) matching_blocks;
  inv_apart : pairwise apart (queue ++ (block_region <$> matching_blocks));
}.

(** The work that a queue still stands for: every pending region is
    popped once, and every block found shortens what is left of [a]. *)
Definition work (queue : list region) : nat :=
  sum_list ((λ r : region, 2 * (r.1.1.2 - r.1.1.1) + 1) <$> queue).

(** Each block starts, on both sides, at or after the place where the one
    before it ends; the first one at or after [(i, j)]. *)
Fixpoint mono (i j : nat) (blocks : list Match) : Prop :=
  match blocks with
  | [] => True
  | (ai, bj, size) :: blocks' =>
      i ≤ ai ∧ j ≤ bj ∧ mono (ai + size) (bj + size) blocks'
  end.

(** Where the last block ends. *)
Fixpoint chain_end (i j : nat) (blocks : list Match) : nat * nat :=
  match blocks with
  | [] => (i, j)
  | (ai, bj, size) :: blocks' => chain_end (ai + size) (bj + size) blocks'
  end.

(** A block ends inside the two sequences. *)
Definition ends_within (la lb : nat) (x : Match) : Prop :=
  x.1.1 + x.2 ≤ la ∧ x.1.2 + x.2 ≤ lb.

(** What each tag says about the two ranges of its opcode. *)
Definition shape (oc : opcode) : Prop :=
  let '(t, i1, i2, j1, j2) := oc in
  match t with
  | Equal => i1 < i2 ∧ j1 < j2 ∧ i2 - i1 = j2 - j1
  | Replace => i1 < i2 ∧ j1 < j2
  | Delete => i1 < i2 ∧ j1 = j2
  | Insert => i1 = i2 ∧ j1 < j2
  end.

(** The opcodes tile the two sequences from [(i, j)] up to [(n, m)]: each
    one starts where the one before it ends. *)
Fixpoint tiles (i j : nat) (ops : list opcode) (n m : nat) : Prop :=
  match ops with
  | [] => i = n ∧ j = m
  | (t, i1, i2, j1, j2) :: ops' =>
      i1 = i ∧ j1 = j ∧ shape (t, i1, i2, j1, j2) ∧ tiles i2 j2 ops' n m
  end.

(** The positions of the old and of the new sequence under an opcode. *)
Definition old_range (oc : opcode) : list nat :=
  let '(_, i1, i2, _, _) := oc in seq i1 (i2 - i1).

Definition new_range (oc : opcode) : list nat :=
  let '(_, _, _, j1, j2) := oc in seq j1 (j2 - j1).

(** The length of an ['equal'] region, [0] for the other tags. *)
Definition equal_length (oc : opcode) : nat :=
  let '(t, i1, i2, _, _) := oc in
  match t with Equal => i2 - i1 | _ => 0 end.

(** The positions of [x] in [b], counted from [i], in ascending order. *)
Fixpoint positions (i : nat) (b : list A) (x : A) : list nat :=
  match b with
  | [] => []
  | y :: b' =>
      if decide (x = y) then i :: positions (S i) b' x
      else positions (S i) b' x
  end.

(** The entries that one run of the inner loop writes, when no [j] is
    skipped and the loop is not left early. *)
Definition fill (j2len : gmap nat nat) (js : list nat)
    (newj2len : gmap nat nat) : gmap nat nat :=
  foldl (λ m j, <[j := j2lenget j2len j + 1]> m) newj2len js.

(** The candidate lies on the diagonal. *)
Definition diag (best : Match) : Prop := best.1.1 = best.1.2.

(** The match ratio as the specification defines it: the ratio that
    [landmark_diff] takes from the matcher, and [0] for two empty
    sequences (where [landmark_diff] does not ask the matcher). *)
Definition match_ratio (a b : list A) : Q :=
  if length a + length b =? 0 then 0%Q else ratio a b.

(** The same match ratio as the program has it, a binary64 float. *)
Definition float_match_ratio (a b : list A) : PrimFloat.float :=
  if length a + length b =? 0 then float_of_nat 0 else float_ratio a b.

(** [matchRatio * (n + m) / 2], evaluated on the float that the program
    has, in float arithmetic. *)
Definition half_ratio_times_lengths (a b : list A) : PrimFloat.float :=
  PrimFloat.div
    (PrimFloat.mul (float_match_ratio a b)
       (float_of_nat (length a + length b)))
    (float_of_nat 2).

End matcher_vocabulary.

Section self_match_vocabulary.
Import difflib.
Context {A : Type} `{EqDecision A}.
Variable a : list A.

(** The length of the run of elements that are still in [b2j] (that is,
    not popular) and end at position [i]. *)
Fixpoint run (i : nat) : nat :=
  if decide (b2j_get (chain_b a) a i = []) then 0
  else S (match i with 0 => 0 | S i' => run i' end).

Definition run_before (i : nat) : nat :=
  match i with 0 => 0 | S i' => run i' end.

(** What the row before [i] recorded: no run longer than the elements
    allow, and on the diagonal the full run. *)
Definition prev_ok (i : nat) (j2len : gmap nat nat) : Prop :=
  (∀ j, j2lenget j2len j ≤ run_before i ∧ j2lenget j2len j ≤ run_before j)
  ∧ j2lenget j2len i = run_before i.

End self_match_vocabulary.

Section program_vocabulary.
Import bs4 differ.

(** The class component of [node_diff]. *)
Definition class_diff (old_classes new_classes : gset string) : Q :=
  if decide (old_classes ≠ ∅ ∨ new_classes ≠ ∅)
  then (1 - true_div (Z.of_nat (size (old_classes ∩ new_classes)))
                     (Z.of_nat (size (old_classes ∪ new_classes))))%Q
  else 0%Q.

(** The child-count component of [node_diff]. *)
Definition child_diff (old_count new_count : nat) : Q :=
  if 0 <? old_count `max` new_count
  then true_div (Z.abs (Z.of_nat old_count - Z.of_nat new_count))
                (Z.of_nat (old_count `max` new_count))
  else 0%Q.

(** An opcode whose two ranges do not run backwards. *)
Definition ordered (oc : difflib.opcode) : Prop :=
  let '(_, i1, i2, j1, j2) := oc in i1 ≤ i2 ∧ j1 ≤ j2.

(** The accumulators of [skeleton_diff]: the differences add up to no
    more than the positions. *)
Definition acc_ok (acc : Q * Z) : Prop :=
  (0 <= acc.1 <= inject_Z acc.2)%Q ∧ (0 ≤ acc.2)%Z.

Definition a_profile : NodeProfile :=
  {| tag := "div"; id_attr := ""; classes := []; child_count := 0 |}.

(** The four components as the specification words them.  The class
    sets are told apart from the [classes] tuples: their sizes are counted
    on the tuples, without their repetitions. *)
Definition spec_tag_mismatch (old new : NodeProfile) : Q :=
  if bool_decide (tag old ≠ tag new) then 1%Q else 0%Q.

Definition spec_id_mismatch (old new : NodeProfile) : Q :=
  if bool_decide (id_attr old ≠ id_attr new) then 1%Q else 0%Q.

Definition spec_intersection_size (xs ys : list string) : nat :=
  length (filter (λ x, x ∈ ys) (remove_dups xs)).

Definition spec_union_size (xs ys : list string) : nat :=
  length (remove_dups (xs ++ ys)).

Definition spec_class_mismatch (old new : NodeProfile) : Q :=
  if bool_decide (classes old = [] ∧ classes new = []) then 0%Q
  else (1 - inject_Z (Z.of_nat
               (spec_intersection_size (classes old) (classes new)))
            / inject_Z (Z.of_nat
                 (spec_union_size (classes old) (classes new))))%Q.

Definition spec_child_mismatch (old new : NodeProfile) : Q :=
  let hi := child_count old `max` child_count new in
  let lo := child_count old `min` child_count new in
  if bool_decide (0 < hi)
  then (inject_Z (Z.of_nat (hi - lo)) / inject_Z (Z.of_nat hi))%Q
  else 0%Q.

(** Two profiles of a [div] whose [class] attribute holds the same two
    tokens in a different order. *)
Definition profile_a_b : NodeProfile :=
  {| tag := "div"; id_attr := ""; classes := ["a"; "b"]; child_count := 0 |}.

Definition profile_b_a : NodeProfile :=
  {| tag := "div"; id_attr := ""; classes := ["b"; "a"]; child_count := 0 |}.

Definition profile_b_a_a : NodeProfile :=
  {| tag := "div"; id_attr := ""; classes := ["b"; "a"; "a"];
     child_count := 0 |}.

(** Two documents without a [body]: four landmarks each, the same four in
    a different order. *)
Definition doc_header_first : BeautifulSoup :=
  [Tag "header" ∅ []; Tag "nav" ∅ []; Tag "main" ∅ []; Tag "aside" ∅ []].

Definition doc_header_last : BeautifulSoup :=
  [Tag "main" ∅ []; Tag "nav" ∅ []; Tag "aside" ∅ []; Tag "header" ∅ []].

(** [src] is a child of [body], or a child of one of its children. *)
Definition below_body (parent : path) (body : node) (src : path * node)
    : Prop :=
  (∃ k, src.1 = parent ++ [k] ∧ children body !! k = Some src.2)
  ∨ (∃ k g child, src.1 = parent ++ [k; g]
       ∧ children body !! k = Some child ∧ children child !! g = Some src.2).

(** [q] is a proper ancestor position of [p]. *)
Definition under (q p : path) : Prop := ∃ r, r ≠ [] ∧ p = q ++ r.

(** The second half of C10 as the specification words it: no element that
    lies under a [body] other than the first one is the source of a
    profile. *)
Definition other_bodies_excluded (soup : BeautifulSoup) : Prop :=
  ∀ p e q b,
    (p, e) ∈ skeleton_sources soup →
    (q, b) ∈ find_all_at soup ["body"] →
    find_at soup "body" ≠ Some (q, b) →
    ¬ under q p.

(** A [body] inside a [body], with a paragraph in the inner one. *)
Definition doc_nested_body : BeautifulSoup :=
  [Tag "body" ∅ [Tag "body" ∅ [Tag "p" ∅ []]]].

End program_vocabulary.

Section agreement_vocabulary.
Import difflib.
Context {A : Type} `{EqDecision A}.

(** The block [x] pairs equal elements: [a[i:i+k] == b[j:j+k]], inside
    both sequences. *)
Definition agree (a b : list A) (x : Match) : Prop :=
  ∀ t, t < x.2 → same_at a b (x.1.1 + t) (x.1.2 + t) = true.

(** The runs recorded for the row before [i] are runs of equal elements
    that end at that row. *)
Definition row_agree (a b : list A) (i : nat) (j2len : gmap nat nat)
    : Prop :=
  ∀ j k, j2len !! j = Some k →
    k ≤ i ∧ k ≤ j + 1
    ∧ ∀ t, t < k → same_at a b (i - 1 - t) (j - t) = true.

(** An ['equal'] opcode lies over two identical slices. *)
Definition equal_ok (a b : list A) (oc : opcode) : Prop :=
  let '(t, i1, i2, j1, j2) := oc in
  t = Equal → differ.slice a i1 i2 = differ.slice b j1 j2.

(** No element of [a] is equal to an element of [b]. *)
Definition disjoint (a b : list A) : Prop :=
  ∀ i j, same_at a b i j = false.

End agreement_vocabulary.

Section further_program_vocabulary.
Import bs4 differ.

(** The distance of two sequences paired position by position: the node
    distance of each pair, and [1] for every element of the longer
    sequence that has no partner. *)
Fixpoint paired_distance (old new : list NodeProfile) : Q :=
  match old, new with
  | o :: old', n :: new' => (node_diff o n + paired_distance old' new')%Q
  | [], l | l, [] => inject_Z (Z.of_nat (length l))
  end.

(** Two profiles that [node_diff] cannot tell apart: the same tag, id and
    child count, and the same class tokens in any order. *)
Definition same_up_to_class_order (p q : NodeProfile) : Prop :=
  tag p = tag q ∧ id_attr p = id_attr q
  ∧ (list_to_set (classes p) : gset string) = list_to_set (classes q)
  ∧ child_count p = child_count q.

(** Two landmark sequences of 49 tags each that have their first tag in
    common and no other. *)
Definition header_and_navs : list string := "header" :: replicate 48 "nav".
Definition header_and_mains : list string := "header" :: replicate 48 "main".

(** The rank of a label of [interpret_score]: minor changes [0],
    significant modifications [1], a major rewrite [2]. *)
Definition severity (label : string) : nat :=
  if decide (label = "Major structural rewrite detected") then 2
  else if decide (label = "Significant layout modifications detected") then 1
  else 0.

End further_program_vocabulary.

Section document_vocabulary.
Import bs4 differ.

(** The number of nodes of a tree, and of a list of trees. *)
Fixpoint weight (n : node) : nat :=
  match n with
  | Tag _ _ cs =>
      S ((fix go (cs : list node) : nat :=
            match cs with
            | [] => 0
            | c :: cs' => weight c + go cs'
            end) cs)
  | NavigableString _ => 1
  end.

Definition forest_weight (cs : list node) : nat := sum_list (map weight cs).

(** The tree without its text, comments and other non-element nodes, at
    every depth. *)
Fixpoint strip_text (n : node) : node :=
  match n with
  | Tag nm attrs cs =>
      Tag nm attrs
        ((fix go (cs : list node) : list node :=
            match cs with
            | [] => []
            | c :: cs' => if is_tag c then strip_text c :: go cs' else go cs'
            end) cs)
  | NavigableString t => NavigableString t
  end.

Definition strip_forest (cs : list node) : list node :=
  strip_text <$> filter (λ c, is_tag c = true) cs.

(** The profiles that one child of the body brings to the skeleton: its
    own, followed by those of its children, unless it is ignored; ignored
    children of it are left out. *)
Definition family (child : node) : list NodeProfile :=
  if ignored child then []
  else _make_profile child
       :: (_make_profile <$> filter (λ g, ignored g = false) (children child)).

(** The tree with only the [id] and [class] attributes of its elements
    kept, at every depth. *)
Fixpoint keep_id_class (n : node) : node :=
  match n with
  | Tag nm attrs cs =>
      Tag nm (filter (λ kv, kv.1 = "id" ∨ kv.1 = "class") attrs)
        ((fix go (cs : list node) : list node :=
            match cs with
            | [] => []
            | c :: cs' => keep_id_class c :: go cs'
            end) cs)
  | NavigableString t => NavigableString t
  end.

End document_vocabulary.

(** * Facts about the sequence matcher *)

(** ** The model on the examples of the library's documentation *)

Section documentation_examples.
Import difflib.

Example find_longest_match_abcd :
  find_longest_match [" "; "a"; "b"; "c"; "d"]%string
    ["a"; "b"; "c"; "d"; " "; "a"; "b"; "c"; "d"]%string
    (chain_b ["a"; "b"; "c"; "d"; " "; "a"; "b"; "c"; "d"]%string) 0 5 0 9
  = (0, 4, 5).
Proof. reflexivity. Qed.

Example get_matching_blocks_abxcd :
  get_matching_blocks ["a"; "b"; "x"; "c"; "d"]%string
    ["a"; "b"; "c"; "d"]%string
  = [(0, 0, 2); (3, 2, 2); (5, 4, 0)].
Proof. reflexivity. Qed.

Example get_opcodes_qabxcd :
  get_opcodes ["q"; "a"; "b"; "x"; "c"; "d"]%string
    ["a"; "b"; "y"; "c"; "d"; "f"]%string
  = [(Delete, 0, 1, 0, 0); (Equal, 1, 3, 0, 2); (Replace, 3, 4, 2, 3);
     (Equal, 4, 6, 3, 5); (Insert, 6, 6, 5, 6)].
Proof. reflexivity. Qed.

Example ratio_abcd_bcde :
  (ratio ["a"; "b"; "c"; "d"]%string ["b"; "c"; "d"; "e"]%string == 0.75)%Q.
Proof. reflexivity. Qed.

(** The ratio depends on the order of the two arguments. *)
Example ratio_tide_diet :
  (ratio ["t"; "i"; "d"; "e"]%string ["d"; "i"; "e"; "t"]%string == 0.25)%Q
  ∧ (ratio ["d"; "i"; "e"; "t"]%string ["t"; "i"; "d"; "e"]%string == 0.5)%Q.
Proof. split; reflexivity. Qed.

(** In a second sequence of 200 elements or more, popular elements are not
    indexed: here the matcher synchronises on the single [2] and extends
    the match from there, where the full index would have matched the
    first three elements. *)
Example get_opcodes_popular :
  get_opcodes [1; 1; 1; 2; 1; 1] (2 :: replicate 210 1)
  = [(Delete, 0, 3, 0, 0); (Equal, 3, 6, 0, 3); (Insert, 6, 6, 3, 211)].
Proof. vm_compute. reflexivity. Qed.

End documentation_examples.


Section find_longest_match_facts.
Import difflib.
Context {A : Type} `{EqDecision A}.
Implicit Types (a b : list A) (b2j : list (A * list nat)) (best : Match).
Implicit Types (j2len newj2len : gmap nat nat).

Lemma row_ok_empty alo blo bhi i : row_ok alo blo bhi i ∅.
Proof. intros j k Hjk. by rewrite lookup_empty in Hjk. Qed.

Lemma j2lenget_bound alo blo bhi i j2len j :
  row_ok alo blo bhi i j2len → alo ≤ i → blo ≤ j →
  j2lenget j2len j + 1 + alo ≤ i + 1 ∧ j2lenget j2len j + 1 + blo ≤ j + 1.
Proof.
  intros Hrow Hi Hj. destruct j as [|j']; simpl; [lia|].
  destruct (j2len !! j') as [k|] eqn:Hk; simpl; [|lia].
  destruct (Hrow _ _ Hk) as (? & ? & ? & ?). lia.
Qed.

Lemma inner_loop_inv alo ahi blo bhi i j2len js newj2len best :
  alo ≤ i → i < ahi →
  row_ok alo blo bhi i j2len →
  row_ok alo blo bhi (S i) newj2len →
  in_window alo ahi blo bhi best →
  row_ok alo blo bhi (S i) (inner_loop blo bhi i j2len js newj2len best).1
  ∧ in_window alo ahi blo bhi
      (inner_loop blo bhi i j2len js newj2len best).2.
Proof.
  intros Hlo Hhi Hprev.
  revert newj2len best.
  induction js as [|j js IH]; intros newj2len best Hnew Hbest; simpl.
  { done. }
  destruct (Nat.ltb_spec j blo) as [Hj|Hj]; [by apply IH|].
  destruct (Nat.leb_spec bhi j) as [Hj'|Hj']; [done|].
  destruct (j2lenget_bound alo blo bhi i j2len j Hprev Hlo Hj) as [Hk1 Hk2].
  apply IH.
  - intros j0 k0. rewrite lookup_insert.
    case_decide as Hjj; [|by apply Hnew].
    intros [= <-]. subst j0. lia.
  - destruct best as [[bi bj] bs]; simpl in *.
    destruct (Nat.ltb_spec bs (j2lenget j2len j + 1)); [|done].
    unfold in_window in *; simpl in *. lia.
Qed.

Lemma outer_loop_inv a b2j alo ahi blo bhi n i j2len best :
  alo ≤ i → i + n = ahi →
  row_ok alo blo bhi i j2len →
  in_window alo ahi blo bhi best →
  in_window alo ahi blo bhi
    (outer_loop a b2j blo bhi (seq i n) j2len best).
Proof.
  revert i j2len best.
  induction n as [|n IH]; intros i j2len best Hlo Hn Hrow Hbest; simpl.
  { done. }
  destruct (inner_loop blo bhi i j2len (b2j_get b2j a i) ∅ best)
    as [newj2len best'] eqn:Hin.
  destruct (inner_loop_inv alo ahi blo bhi i j2len (b2j_get b2j a i) ∅ best)
    as [Hrow' Hbest']; [lia|lia|done|apply row_ok_empty|done|].
  rewrite Hin in Hrow', Hbest'. simpl in *.
  apply IH; [lia|lia|done|done].
Qed.

Lemma extend_left_inv a b w alo ahi blo bhi besti bestj bestsize :
  in_window alo ahi blo bhi (besti, bestj, bestsize) →
  in_window alo ahi blo bhi
    (extend_left a b w alo blo besti bestj bestsize).
Proof.
  revert bestj bestsize.
  induction besti as [|i' IH]; intros bestj bestsize Hbest; simpl.
  { done. }
  destruct bestj as [|j']; [done|].
  destruct (_ && _) eqn:Hc; [|done].
  repeat (apply andb_prop in Hc as [Hc ?]).
  apply Nat.ltb_lt in Hc. match goal with H : (blo <? _) = true |- _ =>
    apply Nat.ltb_lt in H end.
  apply IH. unfold in_window in *; simpl in *. lia.
Qed.

Lemma extend_right_loop_inv a b w alo ahi blo bhi room besti bestj bestsize :
  besti + bestsize + room ≤ ahi →
  in_window alo ahi blo bhi (besti, bestj, bestsize) →
  in_window alo ahi blo bhi
    (extend_right_loop a b w bhi room besti bestj bestsize).
Proof.
  revert bestsize.
  induction room as [|room IH]; intros bestsize Hroom Hbest; simpl.
  { done. }
  destruct (_ && _) eqn:Hc; [|done].
  repeat (apply andb_prop in Hc as [Hc ?]).
  apply Nat.ltb_lt in Hc.
  apply IH; [lia|]. unfold in_window in *; simpl in *. lia.
Qed.

Lemma extend_right_inv a b w alo ahi blo bhi best :
  in_window alo ahi blo bhi best →
  in_window alo ahi blo bhi (extend_right a b w ahi bhi best).
Proof.
  destruct best as [[bi bj] bs]. intros Hbest. unfold extend_right.
  apply extend_right_loop_inv; [|done].
  unfold in_window in *; simpl in *. lia.
Qed.

(** The block that [find_longest_match] returns lies inside the window it
    was asked to search. *)
Lemma find_longest_match_in_window a b b2j alo ahi blo bhi :
  alo ≤ ahi → blo ≤ bhi →
  in_window alo ahi blo bhi (find_longest_match a b b2j alo ahi blo bhi).
Proof.
  intros Ha Hb. unfold find_longest_match.
  pose proof (outer_loop_inv a b2j alo ahi blo bhi (ahi - alo) alo ∅
                (alo, blo, 0)) as Hout.
  destruct (outer_loop _ _ _ _ _ _ _) as [[bi bj] bs].
  assert (in_window alo ahi blo bhi (bi, bj, bs)) as H1.
  { apply Hout; [lia|lia|apply row_ok_empty|].
    unfold in_window; simpl; lia. }
  apply (extend_left_inv a b false) in H1.
  apply (extend_right_inv a b false) in H1.
  destruct (extend_right a b false ahi bhi _) as [[bi' bj'] bs'].
  apply (extend_left_inv a b true) in H1.
  by apply (extend_right_inv a b true) in H1.
Qed.

End find_longest_match_facts.

(** ** The work list of [get_matching_blocks] *)

Section pairwise.
Context {X : Type} (R : relation X).

Lemma pairwise_app_r l1 l2 : pairwise R (l1 ++ l2) → pairwise R l2.
Proof. induction l1 as [|x l1 IH]; simpl; [done|]. intros [_ ?]; auto. Qed.

Lemma pairwise_snoc `{!Symmetric R} l x :
  pairwise R l → Forall (R x) l → pairwise R (l ++ [x]).
Proof.
  induction l as [|y l IH]; simpl; intros Hl Hx.
  { split; [constructor|done]. }
  destruct Hl as [Hy Hl]. inversion_clear Hx as [|?? Hxy Hx'].
  split; [|by apply IH].
  apply Forall_app; split; [done|]. by repeat constructor.
Qed.

Lemma pairwise_Permutation `{!Symmetric R} l1 l2 :
  l1 ≡ₚ l2 → pairwise R l1 → pairwise R l2.
Proof.
  induction 1 as [|x l1 l2 Hp IH|x y l|l1 l2 l3 _ IH1 _ IH2]; simpl.
  - done.
  - intros [Hx Hl]. split; [by rewrite <-Hp|auto].
  - intros [Hy [Hx Hl]]. inversion_clear Hy as [|?? Hyx Hy'].
    split_and!; [constructor|..]; done.
  - auto.
Qed.
End pairwise.

Section blocks_loop_facts.
Import difflib.
Context {A : Type} `{EqDecision A}.
Implicit Types (a b : list A) (b2j : list (A * list nat)).
Implicit Types (x : Match) (r : region).

#[global] Instance apart_symmetric : Symmetric apart.
Proof. intros r1 r2 [?|?]; [by right|by left]. Qed.

Lemma blocks_inv_step a b b2j la lb alo ahi blo bhi queue mb i j k :
  blocks_inv la lb ((alo, ahi, blo, bhi) :: queue) mb →
  find_longest_match a b b2j alo ahi blo bhi = (i, j, k) →
  0 < k →
  blocks_inv la lb
    ((if (i + k <? ahi) && (j + k <? bhi)
      then [(i + k, ahi, j + k, bhi)] else [])
     ++ (if (alo <? i) && (blo <? j) then [(alo, i, blo, j)] else [])
     ++ queue)
    (mb ++ [(i, j, k)]).
Proof.
  intros [Hp Hw Hs Ha] Hfind Hk.
  inversion_clear Hp as [|?? [Hp1 Hp2] Hp']. simpl in Hp1, Hp2.
  pose proof (find_longest_match_in_window a b b2j alo ahi blo bhi Hp1 Hp2)
    as Hwin.
  rewrite Hfind in Hwin. destruct Hwin as (W1 & W2 & W3 & W4).
  simpl in W1, W2, W3, W4.
  simpl in Hw. inversion_clear Hw as [|?? [Hw1 Hw2] Hw'].
  simpl in Hw1, Hw2. destruct Ha as [Ha1 Ha2].
  set (rest := queue ++ (block_region <$> mb)) in *.
  assert (∀ r, r.1.1.2 ≤ ahi → r.2 ≤ bhi → alo ≤ r.1.1.1 → blo ≤ r.1.2 →
               Forall (apart r) rest) as Hin.
  { intros [[[r1 r2] r3] r4]; simpl; intros ????.
    eapply Forall_impl; [exact Ha1|].
    intros [[[y1 y2] y3] y4]; unfold apart, before; simpl. lia. }
  assert (pairwise apart (rest ++ [block_region (i, j, k)])) as Hrest.
  { apply pairwise_snoc; [apply _|done|].
    apply Hin; simpl; lia. }
  assert (Forall (within la lb) (rest ++ [block_region (i, j, k)])) as Hwr.
  { apply Forall_app; split; [done|].
    apply Forall_singleton. split; simpl; lia. }
  assert (∀ r, r.1.1.2 ≤ ahi → r.2 ≤ bhi → alo ≤ r.1.1.1 → blo ≤ r.1.2 →
               apart r (block_region (i, j, k)) →
               Forall (apart r) (rest ++ [block_region (i, j, k)])) as Hin'.
  { intros r ?????. apply Forall_app; split; [by apply Hin|].
    by apply Forall_singleton. }
  destruct (Nat.ltb_spec (i + k) ahi), (Nat.ltb_spec (j + k) bhi),
    (Nat.ltb_spec alo i), (Nat.ltb_spec blo j); simpl;
    (split;
     [ rewrite ?Forall_cons; unfold proper; simpl; split_and?; done || lia
     | rewrite fmap_app; cbn [app]; rewrite (app_assoc queue); fold rest;
       rewrite ?Forall_cons; split_and?; try done;
       unfold within; simpl; lia
     | apply Forall_app; split; [done|]; by apply Forall_singleton
     | rewrite fmap_app; cbn [app pairwise];
       rewrite (app_assoc queue); fold rest;
       rewrite ?Forall_cons; split_and?; try done;
       try (apply Hin'; simpl; unfold apart, before; simpl; lia);
       unfold apart, before; simpl; lia ]).
Qed.

Lemma blocks_inv_pop la lb r queue mb :
  blocks_inv la lb (r :: queue) mb → blocks_inv la lb queue mb.
Proof.
  intros [Hp Hw Hs Ha]. split; [|simpl in Hw|done|by destruct Ha].
  - by inversion Hp.
  - by inversion Hw.
Qed.

Lemma blocks_inv_done la lb queue mb :
  blocks_inv la lb queue mb → blocks_inv la lb [] mb.
Proof.
  induction queue as [|r queue IH]; [done|].
  intros Hinv. by apply IH, blocks_inv_pop with r.
Qed.

Lemma blocks_loop_inv a b b2j la lb fuel queue mb :
  blocks_inv la lb queue mb →
  blocks_inv la lb [] (blocks_loop a b b2j fuel queue mb).
Proof.
  revert queue mb.
  induction fuel as [|fuel IH]; intros queue mb Hinv; simpl.
  { by apply blocks_inv_done with queue. }
  destruct queue as [|[[[alo ahi] blo] bhi] queue]; [done|].
  destruct (find_longest_match a b b2j alo ahi blo bhi)
    as [[i j] k] eqn:Hfind.
  destruct (Nat.eqb_spec k 0) as [->|Hk].
  { by apply IH, blocks_inv_pop with (alo, ahi, blo, bhi). }
  apply IH.
  pose proof (blocks_inv_step a b b2j la lb alo ahi blo bhi queue mb i j k
                Hinv Hfind ltac:(lia)) as Hstep.
  by destruct (_ && _), (_ && _).
Qed.

Lemma work_cons alo ahi blo bhi queue :
  work ((alo, ahi, blo, bhi) :: queue) = 2 * (ahi - alo) + 1 + work queue.
Proof. reflexivity. Qed.

Lemma blocks_loop_fuel_irrelevant a b b2j fuel1 fuel2 queue mb :
  Forall proper queue → work queue ≤ fuel1 → work queue ≤ fuel2 →
  blocks_loop a b b2j fuel1 queue mb = blocks_loop a b b2j fuel2 queue mb.
Proof.
  revert fuel2 queue mb.
  induction fuel1 as [|fuel1 IH]; intros fuel2 queue mb Hp H1 H2.
  { destruct queue as [|[[[alo ahi] blo] bhi] queue]; [by destruct fuel2|].
    rewrite work_cons in H1; lia. }
  destruct queue as [|[[[alo ahi] blo] bhi] queue]; [by destruct fuel2|].
  rewrite work_cons in H1, H2.
  destruct fuel2 as [|fuel2]; [lia|].
  simpl.
  inversion_clear Hp as [|?? [Hp1 Hp2] Hp']. simpl in Hp1, Hp2.
  pose proof (find_longest_match_in_window a b b2j alo ahi blo bhi Hp1 Hp2)
    as Hwin.
  destruct (find_longest_match a b b2j alo ahi blo bhi) as [[i j] k].
  destruct Hwin as (W1 & W2 & W3 & W4). simpl in W1, W2, W3, W4.
  destruct (Nat.eqb_spec k 0) as [->|Hk].
  { apply IH; [done|lia|lia]. }
  destruct (Nat.ltb_spec (i + k) ahi), (Nat.ltb_spec (j + k) bhi),
    (Nat.ltb_spec alo i), (Nat.ltb_spec blo j); simpl;
    (apply IH;
     [ rewrite ?Forall_cons; unfold proper; simpl; split_and?; done || lia
     | rewrite ?work_cons; lia
     | rewrite ?work_cons; lia ]).
Qed.

End blocks_loop_facts.

(** ** Sorting and collapsing the blocks; the opcodes *)

Section opcodes_facts.
Import difflib.
Implicit Types (x y : Match) (blocks : list Match) (ops : list opcode).

#[global] Instance Match_le_transitive : Transitive Match_le.
Proof.
  intros [[i1 j1] k1] [[i2 j2] k2] [[i3 j3] k3]; unfold Match_le; lia.
Qed.

#[global] Instance Match_le_total : Total Match_le.
Proof. intros [[i1 j1] k1] [[i2 j2] k2]; unfold Match_le; lia. Qed.

Lemma mono_app i j l1 l2 :
  mono i j (l1 ++ l2)
  ↔ mono i j l1 ∧ mono (chain_end i j l1).1 (chain_end i j l1).2 l2.
Proof.
  revert i j. induction l1 as [|[[ai bj] size] l1 IH]; intros i j; simpl.
  { tauto. }
  rewrite IH. tauto.
Qed.

Lemma chain_end_app i j l1 l2 :
  chain_end i j (l1 ++ l2)
  = chain_end (chain_end i j l1).1 (chain_end i j l1).2 l2.
Proof.
  revert i j. induction l1 as [|[[ai bj] size] l1 IH]; intros i j; simpl;
    [done|apply IH].
Qed.

Lemma mono_weaken i j i' j' blocks :
  i' ≤ i → j' ≤ j → mono i j blocks → mono i' j' blocks.
Proof.
  destruct blocks as [|[[ai bj] size] ?]; simpl; [done|].
  intros ?? (? & ? & ?). split_and!; [lia|lia|done].
Qed.

Lemma chain_end_within la lb i j blocks :
  i ≤ la → j ≤ lb → Forall (ends_within la lb) blocks →
  (chain_end i j blocks).1 ≤ la ∧ (chain_end i j blocks).2 ≤ lb.
Proof.
  revert i j. induction blocks as [|[[ai bj] size] l IH]; intros i j ?? Hl.
  { simpl; lia. }
  inversion_clear Hl as [|?? [??] Hl']. simpl in *. by apply IH.
Qed.

Lemma sorted_apart_mono blocks :
  StronglySorted Match_le blocks →
  pairwise apart (block_region <$> blocks) →
  Forall (λ x, 0 < x.2) blocks →
  ∀ i j, Forall (λ x, i ≤ x.1.1 ∧ j ≤ x.1.2) blocks → mono i j blocks.
Proof.
  induction 1 as [|[[ai bj] size] l Hl IH Hx]; intros Hap Hsz i j Hij.
  { done. }
  inversion_clear Hij as [|?? [??] _]. inversion_clear Hsz as [|?? ? Hsz'].
  destruct Hap as [Hap1 Hap2]. simpl in *.
  split_and!; [done..|]. apply IH; [done..|].
  rewrite Forall_fmap in Hap1.
  rewrite Forall_forall in Hx, Hap1, Hsz'. apply Forall_forall.
  intros [[i2 j2] k2] Hin.
  specialize (Hx _ Hin). specialize (Hap1 _ Hin). specialize (Hsz' _ Hin).
  unfold apart, before, block_region, Match_le in *; simpl in *. lia.
Qed.

Lemma collapse_loop_mono p q i1 j1 k1 blocks acc :
  mono p q (acc ++ (i1, j1, k1) :: blocks) →
  mono p q (collapse_loop i1 j1 k1 blocks acc).
Proof.
  revert i1 j1 k1 acc.
  induction blocks as [|[[i2 j2] k2] blocks IH]; intros i1 j1 k1 acc; simpl.
  { destruct (Nat.eqb_spec k1 0); [|done].
    rewrite mono_app. tauto. }
  destruct (Nat.eqb_spec (i1 + k1) i2) as [Hi|Hi];
    [destruct (Nat.eqb_spec (j1 + k1) j2) as [Hj|Hj]|]; simpl.
  - intros Hm. apply IH. revert Hm. rewrite !mono_app. simpl.
    replace (i1 + (k1 + k2)) with (i2 + k2) by lia.
    replace (j1 + (k1 + k2)) with (j2 + k2) by lia. tauto.
  - intros Hm. apply IH. destruct (Nat.eqb_spec k1 0) as [->|].
    + revert Hm. rewrite !mono_app. simpl.
      intros (? & ? & ? & ? & ? & ?). split_and!; done || lia.
    + by rewrite <-app_assoc.
  - intros Hm. apply IH. destruct (Nat.eqb_spec k1 0) as [->|].
    + revert Hm. rewrite !mono_app. simpl.
      intros (? & ? & ? & ? & ? & ?). split_and!; done || lia.
    + by rewrite <-app_assoc.
Qed.

Lemma collapse_loop_within la lb i1 j1 k1 blocks acc :
  Forall (ends_within la lb) (acc ++ (i1, j1, k1) :: blocks) →
  Forall (ends_within la lb) (collapse_loop i1 j1 k1 blocks acc).
Proof.
  revert i1 j1 k1 acc.
  induction blocks as [|[[i2 j2] k2] blocks IH]; intros i1 j1 k1 acc; simpl.
  { destruct (Nat.eqb_spec k1 0); [|done].
    rewrite Forall_app. tauto. }
  rewrite Forall_app, !Forall_cons. unfold ends_within at 2 3. simpl.
  intros (Hacc & H1 & H2 & Hbl).
  destruct (Nat.eqb_spec (i1 + k1) i2) as [Hi|Hi];
    [destruct (Nat.eqb_spec (j1 + k1) j2) as [Hj|Hj]|]; simpl; apply IH.
  - rewrite Forall_app, Forall_cons. unfold ends_within at 2. simpl.
    split_and!; [done|lia|lia|done].
  - destruct (Nat.eqb_spec k1 0);
      rewrite ?Forall_app, ?Forall_cons, ?Forall_nil; done.
  - destruct (Nat.eqb_spec k1 0);
      rewrite ?Forall_app, ?Forall_cons, ?Forall_nil; done.
Qed.

Lemma mono_sum i j blocks :
  mono i j blocks →
  i + sum_list (map (λ x : Match, x.2) blocks) ≤ (chain_end i j blocks).1
  ∧ j + sum_list (map (λ x : Match, x.2) blocks) ≤ (chain_end i j blocks).2.
Proof.
  revert i j. induction blocks as [|[[ai bj] size] l IH]; intros i j; simpl.
  { lia. }
  intros (? & ? & Hm). specialize (IH _ _ Hm). lia.
Qed.

(** *** The shape of the opcode list *)

Lemma tiles_app i j ops1 i' j' ops2 n m :
  tiles i j ops1 i' j' → tiles i' j' ops2 n m → tiles i j (ops1 ++ ops2) n m.
Proof.
  revert i j. induction ops1 as [|[[[[t i1] i2] j1] j2] l IH]; intros i j.
  { simpl. by intros [-> ->]. }
  simpl. intros (? & ? & ? & ?) ?. split_and!; [done..|]. by eapply IH.
Qed.

Lemma tiles_ranges i j ops n m :
  tiles i j ops n m →
  i ≤ n ∧ j ≤ m
  ∧ flat_map old_range ops = seq i (n - i)
  ∧ flat_map new_range ops = seq j (m - j).
Proof.
  revert i j. induction ops as [|[[[[t i1] i2] j1] j2] l IH]; intros i j.
  { simpl. intros [-> ->]. by rewrite !Nat.sub_diag. }
  simpl. intros (-> & -> & Hsh & Ht).
  destruct (IH _ _ Ht) as (Hi & Hj & -> & ->).
  assert (i ≤ i2 ∧ j ≤ j2) as [??] by (destruct t; simpl in Hsh; lia).
  split_and!; [lia|lia|..].
  - replace (n - i) with ((i2 - i) + (n - i2)) by lia.
    rewrite seq_app. by replace (i + (i2 - i)) with i2 by lia.
  - replace (m - j) with ((j2 - j) + (m - j2)) by lia.
    rewrite seq_app. by replace (j + (j2 - j)) with j2 by lia.
Qed.

Lemma opcodes_loop_tiles i0 j0 i j blocks answer :
  mono i j blocks → tiles i0 j0 answer i j →
  tiles i0 j0 (opcodes_loop i j blocks answer)
    (chain_end i j blocks).1 (chain_end i j blocks).2.
Proof.
  revert i j answer.
  induction blocks as [|[[ai bj] size] l IH]; intros i j answer; simpl.
  { done. }
  intros (Hi & Hj & Hm) Hans. apply IH; [done|].
  assert (tiles i0 j0
    (if (i <? ai) && (j <? bj) then answer ++ [(Replace, i, ai, j, bj)]
     else if i <? ai then answer ++ [(Delete, i, ai, j, bj)]
     else if j <? bj then answer ++ [(Insert, i, ai, j, bj)]
     else answer) ai bj) as Hans1.
  { destruct (Nat.ltb_spec i ai), (Nat.ltb_spec j bj); simpl;
      try (eapply tiles_app; [exact Hans|]; simpl; lia).
    by replace ai with i by lia; replace bj with j by lia. }
  destruct (Nat.eqb_spec size 0) as [->|Hsz].
  { by rewrite !Nat.add_0_r. }
  eapply tiles_app; [exact Hans1|]. simpl. lia.
Qed.

Lemma opcodes_loop_equal_length i j blocks answer :
  sum_list (map equal_length (opcodes_loop i j blocks answer))
  = sum_list (map equal_length answer) + sum_list (map (λ x : Match, x.2) blocks).
Proof.
  revert i j answer.
  induction blocks as [|[[ai bj] size] l IH]; intros i j answer; simpl.
  { lia. }
  rewrite IH. clear IH.
  destruct (Nat.eqb_spec size 0) as [->|Hsz];
    destruct (i <? ai), (j <? bj); simpl;
    rewrite ?map_app, ?sum_list_with_app; simpl; lia.
Qed.

End opcodes_facts.

(** ** The blocks and opcodes of two whole sequences *)

Section matcher_facts.
Import difflib.
Context {A : Type} `{EqDecision A}.
Implicit Types (a b : list A).

Lemma blocks_inv_init la lb : blocks_inv la lb [(0, la, 0, lb)] [].
Proof.
  split; simpl.
  - apply Forall_singleton. unfold proper; simpl; lia.
  - apply Forall_singleton. unfold within; simpl; lia.
  - constructor.
  - split; [constructor|done].
Qed.

(** The fuel that [get_matching_blocks] gives its loop is enough: with
    any larger amount the loop returns the same list. *)
Lemma blocks_loop_fuel a b fuel :
  2 * length a + 1 ≤ fuel →
  blocks_loop a b (chain_b b) fuel [(0, length a, 0, length b)] []
  = blocks_loop a b (chain_b b) (2 * length a + 1)
      [(0, length a, 0, length b)] [].
Proof.
  intros Hfuel. apply blocks_loop_fuel_irrelevant.
  - apply Forall_singleton. unfold proper; simpl; lia.
  - rewrite work_cons. unfold work; simpl. lia.
  - rewrite work_cons. unfold work; simpl. lia.
Qed.

Lemma get_matching_blocks_mono a b :
  mono 0 0 (get_matching_blocks a b)
  ∧ chain_end 0 0 (get_matching_blocks a b) = (length a, length b).
Proof.
  unfold get_matching_blocks.
  set (mb := blocks_loop _ _ _ _ _ _).
  destruct (blocks_loop_inv a b (chain_b b) (length a) (length b)
              (2 * length a + 1) _ [] (blocks_inv_init _ _))
    as [_ Hw Hs Hap]. fold mb in Hw, Hs, Hap. simpl in Hw, Hap.
  pose proof (merge_sort_Permutation Match_le mb) as Hperm.
  set (sorted := merge_sort Match_le mb) in *.
  assert (mono 0 0 sorted) as Hmono.
  { apply sorted_apart_mono.
    - apply (StronglySorted_merge_sort _).
    - eapply (pairwise_Permutation apart); [|exact Hap].
      by rewrite Hperm.
    - by rewrite Hperm.
    - apply Forall_forall. intros ??; lia. }
  assert (Forall (ends_within (length a) (length b)) sorted) as Hin.
  { rewrite Hperm. rewrite Forall_fmap in Hw.
    eapply Forall_impl; [exact Hw|]. by intros [[??]?]. }
  set (res := collapse_loop 0 0 0 sorted []).
  assert (mono 0 0 res) as Hres.
  { apply collapse_loop_mono. simpl. split_and!; [lia|lia|done]. }
  assert (Forall (ends_within (length a) (length b)) res) as Hres'.
  { apply collapse_loop_within. simpl. constructor; [|done].
    unfold ends_within; simpl; lia. }
  destruct (chain_end_within (length a) (length b) 0 0 res) as [??];
    [lia|lia|done|].
  split.
  - apply mono_app. split; [done|]. simpl. split_and!; done.
  - rewrite chain_end_app. simpl. f_equal; lia.
Qed.

(** The matched elements are no more than either sequence holds. *)
Lemma matches_le a b : matches a b ≤ length a ∧ matches a b ≤ length b.
Proof.
  destruct (get_matching_blocks_mono a b) as [Hm He].
  apply mono_sum in Hm. rewrite He in Hm. unfold matches. simpl in Hm.
  lia.
Qed.

Lemma get_opcodes_tiles a b :
  tiles 0 0 (get_opcodes a b) (length a) (length b).
Proof.
  destruct (get_matching_blocks_mono a b) as [Hm He].
  pose proof (opcodes_loop_tiles 0 0 0 0 _ [] Hm) as Ht.
  rewrite He in Ht. by apply Ht.
Qed.

Lemma get_opcodes_equal_length a b :
  sum_list (map equal_length (get_opcodes a b)) = matches a b.
Proof. unfold get_opcodes. by rewrite opcodes_loop_equal_length. Qed.

End matcher_facts.

(** ** What [__chain_b] leaves in [b2j] *)

Section chain_b_facts.
Import difflib.
Context {A : Type} `{EqDecision A}.
Implicit Types (a b : list A) (d : list (A * list nat)) (x y : A).

Lemma dict_get_None d x : x ∉ d.*1 → dict_get d x = None.
Proof.
  induction d as [|[y l] d IH]; simpl; [done|].
  rewrite not_elem_of_cons. intros [??]. case_decide; [done|by apply IH].
Qed.

Lemma setdefault_append_keys d elt i :
  (setdefault_append d elt i).*1
  = if decide (elt ∈ d.*1) then d.*1 else d.*1 ++ [elt].
Proof.
  induction d as [|[y l] d IH]; [done|].
  cbn [setdefault_append].
  destruct (decide (elt = y)) as [->|Hne]; rewrite !fmap_cons; cbn [fst].
  { rewrite decide_True; [done|by left]. }
  rewrite IH. destruct (decide (elt ∈ d.*1)) as [Hin|Hin].
  - rewrite decide_True; [done|by right].
  - rewrite decide_False; [done|]. rewrite not_elem_of_cons. done.
Qed.

Lemma setdefault_append_NoDup d elt i :
  NoDup d.*1 → NoDup (setdefault_append d elt i).*1.
Proof.
  intros Hd. rewrite setdefault_append_keys. case_decide; [done|].
  apply NoDup_app. split_and!; [done| |apply NoDup_singleton].
  intros y Hy ->%list_elem_of_singleton. done.
Qed.

Lemma dict_get_setdefault_append d elt i x :
  default [] (dict_get (setdefault_append d elt i) x)
  = default [] (dict_get d x) ++ (if decide (x = elt) then [i] else []).
Proof.
  induction d as [|[y l] d IH]; simpl.
  { by repeat case_decide. }
  destruct (decide (elt = y)) as [->|Hne]; simpl.
  - destruct (decide (x = y)); simpl; [done|]. by rewrite app_nil_r.
  - destruct (decide (x = y)) as [->|]; simpl; [|done].
    rewrite decide_False by done. by rewrite app_nil_r.
Qed.

Lemma chain_loop_NoDup i b d : NoDup d.*1 → NoDup (chain_loop i b d).*1.
Proof.
  revert i d. induction b as [|y b IH]; intros i d Hd; simpl; [done|].
  by apply IH, setdefault_append_NoDup.
Qed.

Lemma chain_loop_get i b d x :
  default [] (dict_get (chain_loop i b d) x)
  = default [] (dict_get d x) ++ positions i b x.
Proof.
  revert i d. induction b as [|y b IH]; intros i d; simpl.
  { by rewrite app_nil_r. }
  rewrite IH, dict_get_setdefault_append, <-app_assoc.
  by destruct (decide (x = y)).
Qed.

Lemma dict_get_filter (P : A * list nat → Prop) `{∀ e, Decision (P e)} d x :
  NoDup d.*1 →
  default [] (dict_get (filter P d) x) = []
  ∨ dict_get (filter P d) x = dict_get d x.
Proof.
  induction d as [|[y l] d IH]; [by right|].
  rewrite fmap_cons, NoDup_cons. intros [Hy Hd].
  rewrite filter_cons. destruct (decide (P (y, l))); cbn [dict_get].
  - destruct (decide (x = y)); [by right|by apply IH].
  - destruct (decide (x = y)) as [->|]; [|by apply IH].
    left. rewrite dict_get_None; [done|].
    intros ([y' l'] & -> & [_ Hin]%list_elem_of_filter)%list_elem_of_fmap.
    apply Hy. by apply (list_elem_of_fmap_2 fst) in Hin.
Qed.

(** An element of [b] is either purged from [b2j] as popular, or [b2j]
    lists all its positions. *)
Lemma chain_b_get b x :
  default [] (dict_get (chain_b b) x) = []
  ∨ default [] (dict_get (chain_b b) x) = positions 0 b x.
Proof.
  unfold chain_b.
  pose proof (chain_loop_get 0 b [] x) as Hget. simpl in Hget.
  destruct (200 <=? length b); [|by right].
  destruct (dict_get_filter
              (λ entry, is_popular (length b) entry = false)
              (chain_loop 0 b []) x) as [Hf|Hf].
  - apply chain_loop_NoDup. constructor.
  - by left.
  - right. by rewrite Hf.
Qed.

Lemma positions_bounds i b x j :
  j ∈ positions i b x → i ≤ j ∧ b !! (j - i) = Some x.
Proof.
  revert i. induction b as [|y b IH]; intros i; simpl.
  { by intros ?%elem_of_nil. }
  destruct (decide (x = y)) as [->|].
  - rewrite elem_of_cons. intros [->|Hin].
    + by rewrite Nat.sub_diag.
    + destruct (IH _ Hin) as [? Hl]. split; [lia|].
      by replace (j - i) with (S (j - S i)) by lia.
  - intros Hin. destruct (IH _ Hin) as [? Hl]. split; [lia|].
    by replace (j - i) with (S (j - S i)) by lia.
Qed.

(** The positions of [b[t]] are those before [t], then [t], then those
    after [t]. *)
Lemma positions_split i b t x :
  b !! t = Some x →
  ∃ l1 l2, positions i b x = l1 ++ (i + t) :: l2
           ∧ Forall (λ j, j < i + t) l1 ∧ Forall (λ j, i + t < j) l2.
Proof.
  revert i t. induction b as [|y b IH]; intros i t; [done|].
  destruct t as [|t]; simpl.
  - intros [= ->]. rewrite decide_True by done.
    exists [], (positions (S i) b x). rewrite Nat.add_0_r.
    split_and!; [done|constructor|].
    apply Forall_forall. intros j Hj%positions_bounds. lia.
  - intros Ht. destruct (IH (S i) t Ht) as (l1 & l2 & -> & H1 & H2).
    replace (S i + t) with (i + S t) in * by lia.
    destruct (decide (x = y)).
    + exists (i :: l1), l2. split_and!; [done| |done].
      constructor; [lia|done].
    + by exists l1, l2.
Qed.

End chain_b_facts.

(** ** A sequence matched against itself *)

Section inner_loop_facts.
Import difflib.
Implicit Types (j2len newj2len : gmap nat nat) (best : Match).

Lemma fill_lookup j2len js newj2len j :
  fill j2len js newj2len !! j
  = if decide (j ∈ js) then Some (j2lenget j2len j + 1) else newj2len !! j.
Proof.
  revert newj2len. induction js as [|j0 js IH]; intros newj2len.
  { rewrite decide_False; [done|]. by intros ?%elem_of_nil. }
  unfold fill in *. cbn [foldl]. rewrite IH.
  destruct (decide (j ∈ js)) as [Hin|Hin].
  { rewrite decide_True; [done|by right]. }
  destruct (decide (j = j0)) as [->|Hne].
  - rewrite decide_True by (by left). by rewrite lookup_insert_eq.
  - rewrite decide_False by (rewrite not_elem_of_cons; done).
    by rewrite lookup_insert_ne.
Qed.

Lemma inner_loop_map bhi i j2len js newj2len best :
  Forall (λ j, j < bhi) js →
  (inner_loop 0 bhi i j2len js newj2len best).1 = fill j2len js newj2len.
Proof.
  revert newj2len best.
  induction js as [|j js IH]; intros newj2len best Hjs; [done|].
  inversion_clear Hjs as [|?? Hj Hjs']. cbn [inner_loop].
  destruct (Nat.leb_spec bhi j); [lia|].
  change (j <? 0) with false. cbv iota. by rewrite IH.
Qed.

Lemma inner_loop_quiet bhi i j2len js newj2len best :
  Forall (λ j, j < bhi ∧ j2lenget j2len j + 1 ≤ best.2) js →
  (inner_loop 0 bhi i j2len js newj2len best).2 = best.
Proof.
  revert newj2len.
  induction js as [|j js IH]; intros newj2len Hjs; [done|].
  inversion_clear Hjs as [|?? [Hj Hk] Hjs']. cbn [inner_loop].
  destruct (Nat.leb_spec bhi j); [lia|].
  change (j <? 0) with false. cbv iota.
  destruct (Nat.ltb_spec best.2 (j2lenget j2len j + 1)); [lia|].
  by apply IH.
Qed.

Lemma inner_loop_app bhi i j2len l1 l2 newj2len best :
  Forall (λ j, j < bhi) l1 →
  inner_loop 0 bhi i j2len (l1 ++ l2) newj2len best
  = inner_loop 0 bhi i j2len l2
      (inner_loop 0 bhi i j2len l1 newj2len best).1
      (inner_loop 0 bhi i j2len l1 newj2len best).2.
Proof.
  revert newj2len best.
  induction l1 as [|j l1 IH]; intros newj2len best Hl1; [done|].
  inversion_clear Hl1 as [|?? Hj Hl1']. cbn [inner_loop app].
  destruct (Nat.leb_spec bhi j); [lia|].
  change (j <? 0) with false. cbv iota. by apply IH.
Qed.

End inner_loop_facts.

Section self_match.
Import difflib.
Context {A : Type} `{EqDecision A}.
Variable a : list A.
Implicit Types (j2len newj2len : gmap nat nat) (best : Match).

Lemma run_unfold i :
  run a i = if decide (b2j_get (chain_b a) a i = []) then 0
          else S (run_before a i).
Proof. by destruct i. Qed.

Lemma b2j_get_cases i :
  b2j_get (chain_b a) a i = []
  ∨ ∃ l1 l2,
      b2j_get (chain_b a) a i = l1 ++ i :: l2
      ∧ Forall (λ j, j < i) l1 ∧ Forall (λ j, i < j) l2
      ∧ ∀ j, j ∈ b2j_get (chain_b a) a i →
          j < length a
          ∧ b2j_get (chain_b a) a j = b2j_get (chain_b a) a i.
Proof.
  unfold b2j_get at 1 2. destruct (a !! i) as [x|] eqn:Hx; [|by left].
  destruct (chain_b_get a x) as [Hg|Hg]; [by left|right].
  destruct (positions_split 0 a i x Hx) as (l1 & l2 & Hp & H1 & H2).
  exists l1, l2. simpl in Hp, H1, H2. split_and!; [congruence|done..|].
  intros j. unfold b2j_get. rewrite Hx, Hg.
  intros [_ Hj]%positions_bounds. rewrite Nat.sub_0_r in Hj.
  split; [by eapply lookup_lt_Some|]. by rewrite Hj.
Qed.

Lemma prev_ok_empty : prev_ok a 0 ∅.
Proof.
  split; [intros j|done].
  destruct j; simpl; rewrite ?lookup_empty; simpl; lia.
Qed.

(** One row of the table: the best candidate stays on the diagonal. *)
Lemma inner_loop_diag i j2len best :
  prev_ok a i j2len → diag best → (∀ i', i' < i → run a i' ≤ best.2) →
  let r := inner_loop 0 (length a) i j2len (b2j_get (chain_b a) a i) ∅ best
  in prev_ok a (S i) r.1 ∧ diag r.2 ∧ (∀ i', i' < S i → run a i' ≤ r.2.2).
Proof.
  intros [Hprev Hprev_i] Hdiag Hbest.
  pose proof (run_unfold i) as Hrun.
  destruct (b2j_get_cases i) as [Hnil|(l1 & l2 & Hjs & Hl1 & Hl2 & Hall)].
  { rewrite Hnil. rewrite decide_True in Hrun by done. simpl.
    split_and!; [split|done|].
    - intros j. destruct j; simpl; rewrite ?lookup_empty; simpl; lia.
    - simpl. rewrite lookup_empty. simpl. lia.
    - intros i' Hi'. destruct (decide (i' = i)) as [->|]; [lia|].
      apply Hbest. lia. }
  rewrite decide_False in Hrun by (rewrite Hjs; by destruct l1).
  assert (∀ j, j ∈ b2j_get (chain_b a) a i →
               j < length a ∧ run a j = S (run_before a j)) as Hall'.
  { intros j Hj. destruct (Hall j Hj) as [? Heq]. split; [done|].
    rewrite run_unfold, Heq, decide_False; [done|].
    rewrite Hjs; by destruct l1. }
  rewrite Hjs in *.
  assert (Forall (λ j, j < length a) (l1 ++ i :: l2)) as Hlt.
  { apply Forall_forall. intros j Hj. by apply Hall'. }
  pose proof Hlt as Hlt'.
  apply Forall_app in Hlt' as [Hlt1 Hlt2].
  apply Forall_cons in Hlt2 as [Hi Hlt2].
  (* the three phases of the row: left of, on, and right of the diagonal *)
  set (k := j2lenget j2len i + 1).
  set (best2 := if best.2 <? k then (i + 1 - k, i + 1 - k, k) else best).
  assert (run a i ≤ best2.2 ∧ best.2 ≤ best2.2 ∧ diag best2) as (Hb1 & Hb2 & Hb3).
  { unfold best2. destruct (Nat.ltb_spec best.2 k); simpl; unfold k in *;
      split_and!; done || lia. }
  intros r.
  assert (r.1 = fill j2len (l1 ++ i :: l2) ∅) as Hmap.
  { unfold r. by apply inner_loop_map. }
  assert (r.2 = best2) as Hbest2.
  { unfold r. rewrite inner_loop_app by done.
    rewrite (inner_loop_quiet _ _ _ l1).
    2:{ apply Forall_forall. intros j Hj.
        rewrite Forall_forall in Hl1, Hlt1.
        split; [by apply Hlt1|].
        destruct (Hall' j) as [_ Hrj].
        { apply elem_of_app; by left. }
        specialize (Hbest j (Hl1 j Hj)). specialize (Hprev j). lia. }
    cbn [inner_loop].
    destruct (Nat.leb_spec (length a) i); [lia|].
    change (i <? 0) with false. cbv iota. fold k. fold best2.
    rewrite inner_loop_quiet; [done|].
    apply Forall_forall. intros j Hj.
    rewrite Forall_forall in Hlt2.
    split; [by apply Hlt2|]. specialize (Hprev j). lia. }
  rewrite Hmap, Hbest2. split_and!; [split| |].
  - intros [|j]; simpl; [lia|]. rewrite fill_lookup.
    case_decide as Hin; simpl; rewrite ?lookup_empty; simpl; [|lia].
    destruct (Hall' j Hin) as [_ ->]. specialize (Hprev j). lia.
  - simpl. rewrite fill_lookup, decide_True; [simpl; unfold k in *; lia|].
    apply elem_of_app; right; by left.
  - done.
  - intros i' Hi'. destruct (decide (i' = i)) as [->|]; [done|].
    etrans; [apply Hbest; lia|done].
Qed.

Lemma outer_loop_diag m i j2len best :
  i + m = length a →
  prev_ok a i j2len → diag best → (∀ i', i' < i → run a i' ≤ best.2) →
  diag (outer_loop a (chain_b a) 0 (length a) (seq i m) j2len best).
Proof.
  revert i j2len best.
  induction m as [|m IH]; intros i j2len best Hm Hprev Hdiag Hbest; [done|].
  cbn [seq outer_loop].
  pose proof (inner_loop_diag i j2len best Hprev Hdiag Hbest) as Hrow.
  destruct (inner_loop _ _ _ _ _ _ _) as [newj2len best'].
  destruct Hrow as (? & ? & ?). apply IH; [lia|done..].
Qed.

Lemma same_at_self i : i < length a → same_at a a i i = true.
Proof.
  intros [x Hx]%lookup_lt_is_Some. unfold same_at. rewrite Hx.
  by apply bool_decide_eq_true.
Qed.

Lemma junk_at_false (b : list A) j : junk_at b j = false.
Proof. unfold junk_at. by destruct (b !! j). Qed.

Lemma extend_left_self d s :
  d ≤ length a → extend_left a a false 0 0 d d s = (0, 0, s + d).
Proof.
  revert s. induction d as [|d IH]; intros s Hd; cbn [extend_left].
  { by rewrite Nat.add_0_r. }
  rewrite junk_at_false, same_at_self by lia.
  rewrite bool_decide_eq_true_2 by done. cbn [Nat.ltb Nat.leb andb].
  rewrite IH by lia. f_equal; lia.
Qed.

Lemma extend_right_loop_self room s :
  s + room = length a →
  extend_right_loop a a false (length a) room 0 0 s = (0, 0, length a).
Proof.
  revert s. induction room as [|room IH]; intros s Hs;
    cbn [extend_right_loop].
  { f_equal; lia. }
  rewrite junk_at_false, same_at_self by (simpl; lia).
  rewrite bool_decide_eq_true_2 by done.
  destruct (Nat.ltb_spec (0 + s) (length a)); [|simpl in *; lia].
  cbn [andb]. apply IH. lia.
Qed.

(** Over the whole of a sequence and itself, the longest match is the
    whole sequence, however many of its elements are popular. *)
Lemma find_longest_match_self :
  find_longest_match a a (chain_b a) 0 (length a) 0 (length a)
  = (0, 0, length a).
Proof.
  unfold find_longest_match.
  pose proof (outer_loop_diag (length a - 0) 0 ∅ (0, 0, 0)) as Hdiag.
  pose proof (outer_loop_inv a (chain_b a) 0 (length a) 0 (length a)
                (length a - 0) 0 ∅ (0, 0, 0)) as Hwin.
  destruct (outer_loop _ _ _ _ _ _ _) as [[bi bj] bs].
  assert (bi = bj) as <-.
  { apply Hdiag; [lia|apply prev_ok_empty|done|]. intros; lia. }
  destruct Hwin as (_ & _ & Hw & _);
    [lia|lia|apply row_ok_empty|unfold in_window; simpl; lia|].
  simpl in Hw.
  rewrite extend_left_self by lia. unfold extend_right.
  rewrite extend_right_loop_self by lia.
  cbn [extend_left]. by rewrite Nat.sub_diag.
Qed.

Lemma get_matching_blocks_self :
  get_matching_blocks a a
  = if length a =? 0 then [(0, 0, 0)]
    else [(0, 0, length a); (length a, length a, 0)].
Proof.
  unfold get_matching_blocks.
  replace (2 * length a + 1) with (S (2 * length a)) by lia.
  cbn [blocks_loop]. rewrite find_longest_match_self.
  destruct (Nat.eqb_spec (length a) 0) as [Hn|Hn].
  { rewrite Hn. by destruct (2 * 0). }
  replace (0 + length a <? length a) with false
    by (symmetry; apply Nat.ltb_ge; lia).
  change (0 <? 0) with false. cbn [andb app].
  replace (blocks_loop a a (chain_b a) (2 * length a) []
             [(0, 0, length a)]) with [(0, 0, length a)]
    by (by destruct (2 * length a)).
  change (merge_sort Match_le [(0, 0, length a)])
    with [(0, 0, length a)].
  cbn [collapse_loop]. rewrite Nat.add_0_l. simpl.
  by destruct (Nat.eqb_spec (length a) 0).
Qed.

Lemma get_opcodes_self :
  get_opcodes a a
  = if length a =? 0 then [] else [(Equal, 0, length a, 0, length a)].
Proof.
  unfold get_opcodes. rewrite get_matching_blocks_self.
  destruct (Nat.eqb_spec (length a) 0) as [Hn|Hn]; [done|].
  cbn [opcodes_loop]. change (0 <? 0) with false. cbn [andb app].
  rewrite Nat.add_0_l. destruct (Nat.eqb_spec (length a) 0); [done|].
  rewrite !Nat.ltb_irrefl, Nat.add_0_r. cbn [andb app]. done.
Qed.

Lemma matches_self : matches a a = length a.
Proof.
  unfold matches. rewrite get_matching_blocks_self.
  destruct (length a =? 0) eqn:Hn; simpl; [|lia].
  apply Nat.eqb_eq in Hn. lia.
Qed.

End self_match.

(** * Facts about the program *)

(** ** The node distance *)

Section node_diff_facts.
Import differ.
Implicit Types (p q old new : NodeProfile).

Lemma true_div_bounds (x y : Z) :
  (0 ≤ x ≤ y)%Z → (0 < y)%Z → (0 <= true_div x y <= 1)%Q.
Proof.
  intros Hx Hy. unfold true_div.
  assert (0 < inject_Z y)%Q as Hy'.
  { change 0%Q with (inject_Z 0). rewrite <-Zlt_Qlt. lia. }
  split.
  - apply Qle_shift_div_l; [done|]. rewrite Qmult_0_l.
    change 0%Q with (inject_Z 0). rewrite <-Zle_Qle. lia.
  - apply Qle_shift_div_r; [done|]. rewrite Qmult_1_l.
    rewrite <-Zle_Qle. lia.
Qed.

Lemma true_div_self (x : Z) : (0 < x)%Z → (true_div x x == 1)%Q.
Proof.
  intros Hx. unfold true_div. field.
  change 0%Q with (inject_Z 0). rewrite inject_Z_injective. lia.
Qed.

Lemma mismatch_bounds (x y : string) : (0 <= mismatch x y <= 1)%Q.
Proof. unfold mismatch. case_decide; split; lra. Qed.

Lemma node_diff_unfold old new :
  node_diff old new
  = (mismatch (tag old) (tag new) * TAG_WEIGHT
     + class_diff (list_to_set (classes old)) (list_to_set (classes new))
       * CLASS_WEIGHT
     + mismatch (id_attr old) (id_attr new) * ID_WEIGHT
     + child_diff (child_count old) (child_count new)
       * CHILD_COUNT_WEIGHT)%Q.
Proof. reflexivity. Qed.

Lemma class_diff_bounds (X Y : gset string) : (0 <= class_diff X Y <= 1)%Q.
Proof.
  unfold class_diff. case_decide as Hne; [|split; lra].
  assert (size (X ∩ Y) ≤ size (X ∪ Y)) as Hsub.
  { apply subseteq_size. set_solver. }
  assert (0 < size (X ∪ Y)) as Hpos.
  { destruct (decide (size (X ∪ Y) = 0)) as [Hz|]; [|lia].
    apply size_empty_inv in Hz. exfalso.
    apply leibniz_equiv in Hz.
    destruct Hne as [Hne|Hne]; apply Hne; set_solver. }
  destruct (true_div_bounds (Z.of_nat (size (X ∩ Y)))
              (Z.of_nat (size (X ∪ Y)))); [lia|lia|].
  split; lra.
Qed.

Lemma class_diff_self (X : gset string) : (class_diff X X == 0)%Q.
Proof.
  unfold class_diff. case_decide as Hne; [|lra].
  assert (X ≠ ∅) as HX by tauto.
  replace (X ∩ X) with X by set_solver.
  replace (X ∪ X) with X by set_solver.
  rewrite true_div_self; [lra|].
  destruct (decide (size X = 0)) as [Hz|]; [|lia].
  apply size_empty_inv, leibniz_equiv in Hz. done.
Qed.

Lemma child_diff_bounds (n m : nat) : (0 <= child_diff n m <= 1)%Q.
Proof.
  unfold child_diff. destruct (Nat.ltb_spec 0 (n `max` m)); [|split; lra].
  apply true_div_bounds; lia.
Qed.

Lemma child_diff_self (n : nat) : (child_diff n n == 0)%Q.
Proof.
  unfold child_diff. destruct (0 <? n `max` n); [|lra].
  rewrite Z.sub_diag. unfold true_div, Qdiv.
  change (inject_Z (Z.abs 0)) with 0%Q. apply Qmult_0_l.
Qed.

Lemma node_diff_bounds old new : (0 <= node_diff old new <= 1)%Q.
Proof.
  rewrite node_diff_unfold.
  destruct (mismatch_bounds (tag old) (tag new)).
  destruct (mismatch_bounds (id_attr old) (id_attr new)).
  destruct (class_diff_bounds (list_to_set (classes old))
              (list_to_set (classes new))).
  destruct (child_diff_bounds (child_count old) (child_count new)).
  unfold TAG_WEIGHT, CLASS_WEIGHT, ID_WEIGHT, CHILD_COUNT_WEIGHT.
  split; lra.
Qed.

End node_diff_facts.

(** ** The two sub-scores *)

Section score_facts.
Import differ.
Implicit Types (old new : list NodeProfile) (acc : Q * Z).

Lemma calculate_ratio_bounds (m len : nat) :
  2 * m ≤ len → (0 <= difflib.calculate_ratio m len <= 1)%Q.
Proof.
  intros Hm. unfold difflib.calculate_ratio.
  destruct (Nat.eqb_spec len 0) as [|Hlen]; [split; lra|].
  assert (2 * inject_Z (Z.of_nat m) == inject_Z (2 * Z.of_nat m))%Q as ->.
  { by rewrite inject_Z_mult. }
  apply true_div_bounds; lia.
Qed.

Lemma ratio_bounds {A} `{EqDecision A} (a b : list A) :
  (0 <= difflib.ratio a b <= 1)%Q.
Proof.
  apply calculate_ratio_bounds. destruct (matches_le a b). lia.
Qed.

Lemma landmark_diff_bounds (old new : list string) :
  (0 <= landmark_diff old new <= 1)%Q.
Proof.
  destruct (ratio_bounds old new).
  unfold landmark_diff. destruct old, new; split; lra.
Qed.

Lemma tiles_ordered i j ops n m : tiles i j ops n m → Forall ordered ops.
Proof.
  revert i j. induction ops as [|[[[[t i1] i2] j1] j2] ops IH]; intros i j.
  { constructor. }
  simpl. intros (_ & _ & Hsh & Ht). constructor; [|by eapply IH].
  destruct t; simpl in *; lia.
Qed.

Lemma replace_loop_bounds old_slice new_slice ks (d : Q) :
  (d <= replace_loop old_slice new_slice ks d
     <= d + inject_Z (Z.of_nat (length ks)))%Q.
Proof.
  revert d. induction ks as [|k ks IH]; intros d.
  { simpl. change (inject_Z (Z.of_nat 0)) with 0%Q. split; lra. }
  cbn [replace_loop length]. rewrite Nat2Z.inj_succ.
  unfold Z.succ. rewrite inject_Z_plus.
  change (inject_Z 1) with 1%Q.
  match goal with |- context [replace_loop _ _ _ ?d'] =>
    destruct (IH d') as [IH1 IH2]; assert (d <= d' <= d + 1)%Q as [??] end.
  { destruct (old_slice !! k) as [o|], (new_slice !! k) as [n|];
      try (split; lra).
    destruct (node_diff_bounds o n). split; lra. }
  split; lra.
Qed.

Lemma opcode_step_ok old new acc oc :
  ordered oc → acc_ok acc → acc_ok (opcode_step old new acc oc).
Proof.
  destruct acc as [d c], oc as [[[[t i1] i2] j1] j2].
  intros [Hi Hj] [[Hd1 Hd2] Hc]. simpl in Hd1, Hd2, Hc.
  unfold opcode_step. destruct t; unfold acc_ok; cbn [fst snd].
  - set (count := _ `max` _).
    destruct (replace_loop_bounds (slice old i1 i2) (slice new j1 j2)
                (seq 0 count) d) as [H1 H2].
    rewrite length_seq in H2. rewrite inject_Z_plus.
    split_and!; [lra|lra|lia].
  - rewrite !inject_Z_plus.
    assert (0 <= inject_Z (Z.of_nat i2 - Z.of_nat i1))%Q.
    { change 0%Q with (inject_Z 0). rewrite <-Zle_Qle. lia. }
    split_and!; [lra|lra|lia].
  - rewrite !inject_Z_plus.
    assert (0 <= inject_Z (Z.of_nat j2 - Z.of_nat j1))%Q.
    { change 0%Q with (inject_Z 0). rewrite <-Zle_Qle. lia. }
    split_and!; [lra|lra|lia].
  - rewrite !inject_Z_plus.
    assert (0 <= inject_Z (Z.of_nat i2 - Z.of_nat i1))%Q.
    { change 0%Q with (inject_Z 0). rewrite <-Zle_Qle. lia. }
    split_and!; [lra|lra|lia].
Qed.

Lemma fold_opcode_step_ok old new ops acc :
  Forall ordered ops → acc_ok acc →
  acc_ok (fold_left (opcode_step old new) ops acc).
Proof.
  revert acc. induction ops as [|oc ops IH]; intros acc Hops Hacc; [done|].
  inversion_clear Hops. simpl. apply IH; [done|].
  by apply opcode_step_ok.
Qed.

Lemma skeleton_diff_bounds old new : (0 <= skeleton_diff old new <= 1)%Q.
Proof.
  unfold skeleton_diff.
  destruct old as [|o old'], new as [|n new']; try (split; lra).
  pose proof (fold_opcode_step_ok (o :: old') (n :: new')
                (difflib.get_opcodes (o :: old') (n :: new')) (0%Q, 0%Z))
    as Hok.
  destruct (fold_left _ _ _) as [d c].
  destruct Hok as [[Hd1 Hd2] Hc].
  { eapply tiles_ordered, get_opcodes_tiles. }
  { split; simpl; [change (inject_Z 0) with 0%Q; split; lra|lia]. }
  simpl in Hd1, Hd2, Hc.
  destruct (Z.ltb_spec 0 c) as [Hpos|]; [|split; lra].
  assert (0 < inject_Z c)%Q.
  { change 0%Q with (inject_Z 0). rewrite <-Zlt_Qlt. lia. }
  split.
  - apply Qle_shift_div_l; [done|]. lra.
  - apply Qle_shift_div_r; [done|]. lra.
Qed.

Lemma diff_score_bounds (old_soup new_soup : bs4.BeautifulSoup) :
  (0 <= diff_score old_soup new_soup <= 1)%Q.
Proof.
  unfold diff_score.
  destruct (landmark_diff_bounds (extract_landmarks old_soup)
              (extract_landmarks new_soup)).
  destruct (skeleton_diff_bounds (extract_skeleton old_soup)
              (extract_skeleton new_soup)).
  unfold LANDMARK_WEIGHT, SKELETON_WEIGHT. split; lra.
Qed.

End score_facts.

(** * The properties of the specification *)

Section identity.
Import differ.

Lemma landmark_diff_self (l : list string) : (landmark_diff l l == 0)%Q.
Proof.
  unfold landmark_diff. destruct l as [|x l]; [reflexivity|].
  unfold difflib.ratio. rewrite matches_self.
  unfold difflib.calculate_ratio.
  destruct (Nat.eqb_spec (length (x :: l) + length (x :: l)) 0) as [E|_].
  { simpl in E; lia. }
  assert (0 < inject_Z (Z.of_nat (length (x :: l))))%Q as Hpos.
  { change 0%Q with (inject_Z 0). rewrite <-Zlt_Qlt. simpl. lia. }
  rewrite Nat2Z.inj_add, inject_Z_plus. field. intros Hz. lra.
Qed.

Lemma skeleton_diff_self (l : list NodeProfile) :
  (skeleton_diff l l == 0)%Q.
Proof.
  unfold skeleton_diff. destruct l as [|x l]; [reflexivity|].
  rewrite get_opcodes_self.
  destruct (Nat.eqb_spec (length (x :: l)) 0) as [E|_].
  { simpl in E; lia. }
  cbn [fold_left opcode_step].
  destruct (Z.ltb_spec 0 (0 + (Z.of_nat (length (x :: l)) - Z.of_nat 0)));
    [|reflexivity].
  unfold Qdiv. apply Qmult_0_l.
Qed.

(** C1 (identity).  For every parsed document [D], the combined score of
    [D] against itself is exactly [0]: the landmark sequence and the
    skeleton sequence are each matched in full against themselves, also
    when they are long enough for the matcher to drop popular elements
    from its index. *)
Theorem diff_score_identity (soup : bs4.BeautifulSoup) :
  (diff_score soup soup == 0)%Q.
Proof.
  unfold diff_score.
  rewrite landmark_diff_self, skeleton_diff_self. ring.
Qed.

End identity.

Section bounds.
Import differ.

(** C2 (bounds).  The combined score of any two documents lies in
    [[0, 1]], and so does each of [landmark_diff], [skeleton_diff] and
    [node_diff] on all inputs. *)
Theorem diff_score_in_unit_interval :
  (∀ old_soup new_soup : bs4.BeautifulSoup,
     (0 <= diff_score old_soup new_soup <= 1)%Q)
  ∧ (∀ old new : list string, (0 <= landmark_diff old new <= 1)%Q)
  ∧ (∀ old new : list NodeProfile, (0 <= skeleton_diff old new <= 1)%Q)
  ∧ (∀ old new : NodeProfile, (0 <= node_diff old new <= 1)%Q).
Proof.
  split_and!.
  - apply diff_score_bounds.
  - apply landmark_diff_bounds.
  - apply skeleton_diff_bounds.
  - apply node_diff_bounds.
Qed.

End bounds.

Section alignment.
Import difflib.
Context {A : Type} `{EqDecision A}.

Lemma calculate_ratio_matches (m len : nat) :
  (inject_Z (Z.of_nat m)
   == calculate_ratio m len * inject_Z (Z.of_nat len) / 2)%Q
  ∨ len = 0.
Proof.
  unfold calculate_ratio. destruct (Nat.eqb_spec len 0) as [|Hlen];
    [by right|left].
  field. change 0%Q with (inject_Z 0). rewrite inject_Z_injective. lia.
Qed.

(** C5 (alignment completeness), with the ratio as the program has it.
    For the landmark sequences [header_and_navs] and [header_and_mains]
    ([n + m = 98]) the only ['equal'] region is the common first tag, of
    length [1].  The ratio is the float [2.0 * 1 / 98], and
    [matchRatio * (n + m) / 2] evaluates on it to a float below [1]
    ([0.9999999999999999]): it is not the sum of the lengths of the
    ['equal'] regions. *)
Lemma alignment_ratio_counterexample :
  length header_and_navs + length header_and_mains = 98
  ∧ get_opcodes header_and_navs header_and_mains
    = [(Equal, 0, 1, 0, 1); (Replace, 1, 49, 1, 49)]
  ∧ sum_list (map equal_length
                (get_opcodes header_and_navs header_and_mains)) = 1
  ∧ float_match_ratio header_and_navs header_and_mains
    = _calculate_ratio 1 98
  ∧ PrimFloat.ltb (half_ratio_times_lengths header_and_navs header_and_mains)
      (float_of_nat 1) = true
  ∧ PrimFloat.eqb (half_ratio_times_lengths header_and_navs header_and_mains)
      (float_of_nat
         (sum_list (map equal_length
                      (get_opcodes header_and_navs header_and_mains))))
    = false.
Proof. split_and!; vm_compute; reflexivity. Qed.

(** C5 (alignment completeness), amended.  For two sequences of lengths
    [n] and [m], the opcodes come in increasing index order, each one
    starting where the one before it ends, from [(0, 0)] to [(n, m)]; their
    old ranges, one after the other, are exactly the positions [0 .. n-1]
    and their new ranges exactly [0 .. m-1]; the lengths of the ['equal']
    regions add up to the number of matched elements, from which the
    library computes the float ratio as [2.0 * matches / (n + m)]; and this
    sum is [match_ratio * (n + m) / 2] for the exact value of the ratio. *)
Theorem alignment_completeness (a b : list A) :
  tiles 0 0 (get_opcodes a b) (length a) (length b)
  ∧ flat_map old_range (get_opcodes a b) = seq 0 (length a)
  ∧ flat_map new_range (get_opcodes a b) = seq 0 (length b)
  ∧ sum_list (map equal_length (get_opcodes a b)) = matches a b
  ∧ float_ratio a b
    = _calculate_ratio (sum_list (map equal_length (get_opcodes a b)))
        (length a + length b)
  ∧ (inject_Z (Z.of_nat (sum_list (map equal_length (get_opcodes a b))))
     == match_ratio a b * inject_Z (Z.of_nat (length a + length b)) / 2)%Q.
Proof.
  pose proof (get_opcodes_tiles a b) as Ht.
  destruct (tiles_ranges _ _ _ _ _ Ht) as (_ & _ & Ho & Hn).
  rewrite Nat.sub_0_r in Ho, Hn. split_and!; [done..| | |].
  { apply get_opcodes_equal_length. }
  { unfold float_ratio. by rewrite get_opcodes_equal_length. }
  rewrite get_opcodes_equal_length. unfold match_ratio, ratio.
  destruct (calculate_ratio_matches (matches a b) (length a + length b))
    as [Hr|Hz].
  - destruct (Nat.eqb_spec (length a + length b) 0) as [Hz|]; [|done].
    destruct (matches_le a b). rewrite Hz.
    replace (matches a b) with 0 by lia. reflexivity.
  - rewrite Hz. destruct (matches_le a b).
    replace (matches a b) with 0 by lia. reflexivity.
Qed.

End alignment.

Section degraded.
Import differ.

Lemma extract_skeleton_no_body (soup : bs4.BeautifulSoup) :
  bs4.find soup "body" = None → extract_skeleton soup = [].
Proof. unfold extract_skeleton. by intros ->. Qed.

(** C7 (degraded cases of the skeleton score).  [skeleton_diff] is a
    total function; when one of its two sequences is empty its value is
    [0] if the other one is empty too, and [1] otherwise. *)
Theorem skeleton_diff_degraded (old new : list NodeProfile) :
  old = [] ∨ new = [] →
  skeleton_diff old new
  = if (length old =? 0) && (length new =? 0) then 0%Q else 1%Q.
Proof. intros [-> | ->]; [by destruct new|by destruct old]. Qed.

Lemma skeleton_diff_degraded_witness :
  skeleton_diff [] [a_profile] = 1%Q.
Proof. apply (skeleton_diff_degraded [] [a_profile]). by left. Defined.

End degraded.

Section combiner.
Import differ.

(** C3, as the specification words it, fails on the labels: the program's
    three strings begin with a capital letter.  A score of [1/2] is above
    [0.40], and its label is not the specification's string. *)
Lemma interpret_score_label_counterexample :
  (0.40 < 1 # 2)%Q
  ∧ interpret_score (1 # 2) ≠ "major structural rewrite detected"
  ∧ interpret_score (1 # 2) = "Major structural rewrite detected".
Proof. split_and!; [reflexivity|discriminate|reflexivity]. Qed.

(** C3 (combiner and interpreter), amended.  The combined score is the
    landmark sub-score times [0.40] plus the skeleton sub-score times
    [0.60]; the label is ["Major structural rewrite detected"] for a
    score above [0.40], ["Significant layout modifications detected"] for
    a score above [0.15] that is not above [0.40], and
    ["Minor structural changes"] for any other score. *)
Theorem combiner_and_interpreter
    (old_soup new_soup : bs4.BeautifulSoup) (score : Q) :
  (diff_score old_soup new_soup
   == landmark_diff (extract_landmarks old_soup)
        (extract_landmarks new_soup) * 0.40
      + skeleton_diff (extract_skeleton old_soup)
          (extract_skeleton new_soup) * 0.60)%Q
  ∧ ((0.40 < score)%Q
       ∧ interpret_score score = "Major structural rewrite detected"
     ∨ (score <= 0.40)%Q ∧ (0.15 < score)%Q
       ∧ interpret_score score
         = "Significant layout modifications detected"
     ∨ (score <= 0.15)%Q
       ∧ interpret_score score = "Minor structural changes").
Proof.
  split; [reflexivity|]. unfold interpret_score.
  destruct (Qlt_le_dec 0.40 score) as [H40|H40]; [by left|].
  destruct (Qlt_le_dec 0.15 score) as [H15|H15].
  - right; left. done.
  - right; right. done.
Qed.

End combiner.

Section node_distance.
Import differ.
Implicit Types (old new p q : NodeProfile).

Lemma size_intersection_list_to_set (xs ys : list string) :
  size ((list_to_set xs : gset string) ∩ list_to_set ys)
  = spec_intersection_size xs ys.
Proof.
  unfold spec_intersection_size.
  rewrite <-(size_list_to_set (C:=gset string)).
  - f_equal. apply set_eq. intros x.
    rewrite elem_of_intersection, !elem_of_list_to_set,
      list_elem_of_filter, elem_of_remove_dups. tauto.
  - apply NoDup_filter, NoDup_remove_dups.
Qed.

Lemma size_union_list_to_set (xs ys : list string) :
  size ((list_to_set xs : gset string) ∪ list_to_set ys)
  = spec_union_size xs ys.
Proof.
  unfold spec_union_size.
  rewrite <-(size_list_to_set (C:=gset string)).
  - f_equal. apply set_eq. intros x.
    rewrite elem_of_union, !elem_of_list_to_set, elem_of_remove_dups,
      elem_of_app. tauto.
  - apply NoDup_remove_dups.
Qed.

Lemma list_to_set_empty_iff (xs : list string) :
  (list_to_set xs : gset string) = ∅ ↔ xs = [].
Proof.
  split; [|by intros ->].
  destruct xs as [|x xs]; [done|]. intros Hx. exfalso.
  assert (x ∈ (∅ : gset string)) as Hin; [|set_solver].
  rewrite <-Hx. set_solver.
Qed.

(** C6 (node distance).  [node_diff] is the weighted sum of the four
    mismatches of the specification, with the weights [0.30], [0.30],
    [0.20] and [0.20], and its value lies in [[0, 1]]. *)
Theorem node_diff_weighted_sum old new :
  (node_diff old new
   == spec_tag_mismatch old new * 0.30
      + spec_class_mismatch old new * 0.30
      + spec_id_mismatch old new * 0.20
      + spec_child_mismatch old new * 0.20)%Q
  ∧ (0 <= node_diff old new <= 1)%Q.
Proof.
  split; [|apply node_diff_bounds].
  rewrite node_diff_unfold.
  assert (mismatch (tag old) (tag new) = spec_tag_mismatch old new) as ->.
  { unfold mismatch, spec_tag_mismatch.
    case_decide; case_bool_decide; done. }
  assert (mismatch (id_attr old) (id_attr new) = spec_id_mismatch old new)
    as ->.
  { unfold mismatch, spec_id_mismatch.
    case_decide; case_bool_decide; done. }
  assert (class_diff (list_to_set (classes old))
            (list_to_set (classes new)) = spec_class_mismatch old new)
    as ->.
  { unfold class_diff, spec_class_mismatch, true_div.
    rewrite size_intersection_list_to_set, size_union_list_to_set.
    case_decide as H1; case_bool_decide as H2; try done.
    - destruct H2 as [E1 E2]. rewrite E1, E2 in H1. by destruct H1.
    - exfalso. apply H2. split; apply list_to_set_empty_iff.
      + destruct (decide ((list_to_set (classes old) : gset string) = ∅));
          [done|]. exfalso. apply H1. by left.
      + destruct (decide ((list_to_set (classes new) : gset string) = ∅));
          [done|]. exfalso. apply H1. by right. }
  assert (child_diff (child_count old) (child_count new)
          = spec_child_mismatch old new) as ->.
  { unfold child_diff, spec_child_mismatch, true_div.
    destruct (Nat.ltb_spec 0 (child_count old `max` child_count new));
      case_bool_decide; try lia; [|done].
    do 3 f_equal. lia. }
  reflexivity.
Qed.

End node_distance.


Section profile_equality.
Import differ.
Implicit Types (p q : NodeProfile).

Lemma tuple_eq_spec (xs ys : list string) : tuple_eq xs ys = true ↔ xs = ys.
Proof.
  revert ys. induction xs as [|x xs IH]; intros [|y ys]; simpl; try done.
  rewrite andb_true_iff, bool_decide_eq_true, IH. split.
  - by intros [-> ->].
  - by intros [= -> ->].
Qed.

(** C8, as the specification words it, fails: [profile_a_b] and
    [profile_b_a] agree on tag, id, child count and on their class tokens
    taken as a set, and are not equal; the aligner pairs them in a
    ['replace'] region, not in an ['equal'] one. *)
Lemma profile_equality_counterexample :
  tag profile_a_b = tag profile_b_a
  ∧ id_attr profile_a_b = id_attr profile_b_a
  ∧ (list_to_set (classes profile_a_b) : gset string)
    = list_to_set (classes profile_b_a)
  ∧ child_count profile_a_b = child_count profile_b_a
  ∧ NodeProfile_eq profile_a_b profile_b_a = false
  ∧ difflib.get_opcodes [profile_a_b] [profile_b_a]
    = [(difflib.Replace, 0, 1, 0, 1)].
Proof.
  split_and!; reflexivity.
Qed.

(** C8 (profile value-equality), amended.  Two profiles are equal exactly
    when all four fields match, the [classes] fields as tuples: the same
    tokens in the same order and with the same repetitions.  This is the
    equality under which the aligner forms its ['equal'] regions. *)
Theorem NodeProfile_eq_fields p q :
  (NodeProfile_eq p q = true
   ↔ tag p = tag q ∧ id_attr p = id_attr q ∧ classes p = classes q
     ∧ child_count p = child_count q)
  ∧ NodeProfile_eq p q = bool_decide (p = q).
Proof.
  assert (NodeProfile_eq p q = true
          ↔ tag p = tag q ∧ id_attr p = id_attr q ∧ classes p = classes q
            ∧ child_count p = child_count q) as Hfields.
  { unfold NodeProfile_eq.
    rewrite !andb_true_iff, !bool_decide_eq_true, tuple_eq_spec. tauto. }
  split; [done|].
  destruct (NodeProfile_eq p q) eqn:Heq.
  - symmetry. apply bool_decide_eq_true.
    destruct Hfields as [Hf _]. destruct (Hf eq_refl) as (? & ? & ? & ?).
    destruct p, q; simpl in *; congruence.
  - symmetry. apply bool_decide_eq_false. intros ->.
    destruct Hfields as [_ Hf].
    assert (false = true) as Habs by (apply Hf; by split_and!).
    discriminate Habs.
Qed.

End profile_equality.

Section class_sets.
Import differ.
Implicit Types (p q : NodeProfile).

Lemma node_diff_self p : (node_diff p p == 0)%Q.
Proof.
  rewrite node_diff_unfold, class_diff_self, child_diff_self.
  unfold mismatch. rewrite !decide_True by done. ring.
Qed.

(** C9 ([node_diff] sees the classes as sets).  Two profiles that differ
    only in their [classes] tuples, and whose tuples hold the same tokens
    (in any order, with any repetitions), are at the same distance from every
    profile, on either side of [node_diff]; and every profile is at
    distance [0] from itself. *)
Theorem node_diff_classes_as_sets p p' q :
  tag p = tag p' → id_attr p = id_attr p' → child_count p = child_count p' →
  (∀ x, x ∈ classes p ↔ x ∈ classes p') →
  node_diff p q = node_diff p' q ∧ node_diff q p = node_diff q p'
  ∧ (node_diff q q == 0)%Q.
Proof.
  intros Ht Hi Hc Hcls.
  assert ((list_to_set (classes p) : gset string) = list_to_set (classes p'))
    as Hset.
  { apply set_eq. intros x. by rewrite !elem_of_list_to_set. }
  split_and!; [| |apply node_diff_self].
  - unfold node_diff. by rewrite Ht, Hi, Hc, Hset.
  - unfold node_diff. by rewrite Ht, Hi, Hc, Hset.
Qed.

Lemma node_diff_classes_as_sets_witness :
  node_diff profile_a_b a_profile = node_diff profile_b_a_a a_profile
  ∧ node_diff a_profile profile_a_b = node_diff a_profile profile_b_a_a
  ∧ (node_diff a_profile a_profile == 0)%Q.
Proof.
  apply (node_diff_classes_as_sets profile_a_b profile_b_a_a a_profile);
    [reflexivity..|].
  intros x. simpl. rewrite !elem_of_cons, !elem_of_nil. tauto.
Defined.

End class_sets.

Section symmetry.
Import bs4 differ.
Implicit Types (p q : NodeProfile).

(** C4, as the specification words it, fails: the matcher finds one
    common landmark in one direction and two in the other, so the two
    landmark scores are [3/4] and [1/2], and the two combined scores [3/10]
    and [1/5]. *)
Lemma diff_score_symmetry_counterexample :
  extract_landmarks doc_header_first = ["header"; "nav"; "main"; "aside"]
  ∧ extract_landmarks doc_header_last = ["main"; "nav"; "aside"; "header"]
  ∧ difflib.get_matching_blocks (extract_landmarks doc_header_first)
      (extract_landmarks doc_header_last) = [(0, 3, 1); (4, 4, 0)]
  ∧ difflib.get_matching_blocks (extract_landmarks doc_header_last)
      (extract_landmarks doc_header_first) = [(0, 2, 1); (2, 3, 1); (4, 4, 0)]
  ∧ (diff_score doc_header_first doc_header_last == 3 # 10)%Q
  ∧ (diff_score doc_header_last doc_header_first == 1 # 5)%Q
  ∧ ¬ (diff_score doc_header_first doc_header_last
       == diff_score doc_header_last doc_header_first)%Q.
Proof.
  split_and!; try reflexivity.
  intros Heq. vm_compute in Heq. discriminate Heq.
Qed.

Lemma mismatch_sym (x y : string) : mismatch x y = mismatch y x.
Proof. unfold mismatch. repeat case_decide; congruence. Qed.

Lemma class_diff_sym (X Y : gset string) : class_diff X Y = class_diff Y X.
Proof.
  unfold class_diff.
  replace (Y ∩ X) with (X ∩ Y) by set_solver.
  replace (Y ∪ X) with (X ∪ Y) by set_solver.
  repeat case_decide; tauto || done.
Qed.

Lemma child_diff_sym (n m : nat) : child_diff n m = child_diff m n.
Proof.
  unfold child_diff. rewrite (Nat.max_comm m n).
  by replace (Z.abs (Z.of_nat m - Z.of_nat n))
    with (Z.abs (Z.of_nat n - Z.of_nat m)) by lia.
Qed.

Lemma node_diff_sym p q : node_diff p q = node_diff q p.
Proof.
  rewrite !node_diff_unfold.
  by rewrite (mismatch_sym (tag p)), (mismatch_sym (id_attr p)),
    (class_diff_sym (list_to_set (classes p))),
    (child_diff_sym (child_count p)).
Qed.

Lemma ratio_no_match {A} `{EqDecision A} (a b : list A) :
  a = [] ∨ b = [] → 0 < length a + length b → (difflib.ratio a b == 0)%Q.
Proof.
  intros Hempty Hlen. unfold difflib.ratio, difflib.calculate_ratio.
  destruct (matches_le a b) as [Ha Hb].
  assert (difflib.matches a b = 0) as ->.
  { destruct Hempty as [-> | ->]; simpl in *; lia. }
  destruct (Nat.eqb_spec (length a + length b) 0); [lia|].
  unfold Qdiv. change (inject_Z (Z.of_nat 0)) with 0%Q. ring.
Qed.

Lemma landmark_diff_empty_r (l : list string) :
  (landmark_diff l [] == if length l =? 0 then 0 else 1)%Q.
Proof.
  destruct l as [|x l]; [reflexivity|]. unfold landmark_diff.
  rewrite ratio_no_match; [reflexivity|by right|simpl; lia].
Qed.

Lemma landmark_diff_empty_l (l : list string) :
  (landmark_diff [] l == if length l =? 0 then 0 else 1)%Q.
Proof.
  destruct l as [|x l]; [reflexivity|]. unfold landmark_diff.
  rewrite ratio_no_match; [reflexivity|by left|simpl; lia].
Qed.

(** C4 (symmetry), amended.  The node distance is symmetric, and each of
    the two sub-scores is symmetric when one of its two sequences is empty.
    (For two non-empty sequences the matcher depends on which one is the
    old one, and the scores may differ.) *)
Theorem diff_symmetry_amended :
  (∀ p q, node_diff p q = node_diff q p)
  ∧ (∀ l : list string, (landmark_diff l [] == landmark_diff [] l)%Q)
  ∧ (∀ l : list NodeProfile, skeleton_diff l [] = skeleton_diff [] l).
Proof.
  split_and!.
  - apply node_diff_sym.
  - intros l. by rewrite landmark_diff_empty_r, landmark_diff_empty_l.
  - intros l. by destruct l.
Qed.

End symmetry.

Section first_body.
Import bs4 differ.
Implicit Types (soup : BeautifulSoup) (parent p q : path) (body : node).
Implicit Types (sources : list (path * node)).

Lemma grandchild_sources_profiles parent k gs sources :
  _make_profile <$> (grandchild_sources parent k gs sources).*2
  = grandchild_loop gs (_make_profile <$> sources.*2).
Proof.
  revert k sources. induction gs as [|g gs IH]; intros k sources; [done|].
  cbn [grandchild_sources grandchild_loop].
  destruct (ignored g); rewrite IH; [done|].
  by rewrite !fmap_app.
Qed.

Lemma child_sources_profiles parent k cs sources :
  _make_profile <$> (child_sources parent k cs sources).*2
  = child_loop cs (_make_profile <$> sources.*2).
Proof.
  revert k sources. induction cs as [|c cs IH]; intros k sources; [done|].
  cbn [child_sources child_loop].
  destruct (ignored c); rewrite IH; [done|].
  by rewrite grandchild_sources_profiles, !fmap_app.
Qed.

(** The elements behind the profiles are the ones [extract_skeleton]
    profiles, in the same order. *)
Lemma skeleton_sources_profiles soup :
  extract_skeleton soup = _make_profile <$> (skeleton_sources soup).*2.
Proof.
  unfold extract_skeleton, skeleton_sources, find.
  destruct (find_at soup "body") as [[parent [nm attrs cs|txt]]|]; try done.
  cbn [fmap option_fmap option_map snd]. by rewrite child_sources_profiles.
Qed.

Lemma grandchild_sources_below parent body k child g gs sources :
  children body !! k = Some child →
  (∀ t, gs !! t = children child !! (g + t)) →
  Forall (below_body parent body) sources →
  Forall (below_body parent body)
    (grandchild_sources (parent ++ [k]) g gs sources).
Proof.
  intros Hchild. revert g sources.
  induction gs as [|x gs IH]; intros g sources Hgs Hsrc; [done|].
  cbn [grandchild_sources].
  assert (∀ t, gs !! t = children child !! (S g + t)) as Hgs'.
  { intros t. replace (S g + t) with (g + S t) by lia. apply (Hgs (S t)). }
  destruct (ignored x); apply IH; try done.
  apply Forall_app. split; [done|]. apply Forall_singleton.
  right. exists k, g, child. cbn [fst snd]. split_and!; [|done|].
  - by rewrite <-app_assoc.
  - rewrite <-(Nat.add_0_r g). by rewrite <-Hgs.
Qed.

Lemma child_sources_below parent body k cs sources :
  (∀ t, cs !! t = children body !! (k + t)) →
  Forall (below_body parent body) sources →
  Forall (below_body parent body) (child_sources parent k cs sources).
Proof.
  revert k sources.
  induction cs as [|c cs IH]; intros k sources Hcs Hsrc; [done|].
  cbn [child_sources].
  assert (∀ t, cs !! t = children body !! (S k + t)) as Hcs'.
  { intros t. replace (S k + t) with (k + S t) by lia. apply (Hcs (S t)). }
  assert (children body !! k = Some c) as Hc.
  { rewrite <-(Nat.add_0_r k). by rewrite <-Hcs. }
  destruct (ignored c); apply IH; try done.
  apply grandchild_sources_below with c; [done|done|].
  apply Forall_app. split; [done|]. apply Forall_singleton.
  left. by exists k.
Qed.

(** C10, as the specification words it, fails for nested bodies: the
    paragraph lies under the second [body], it is a grandchild of the first
    one, and it is profiled. *)
Lemma first_body_only_counterexample :
  (find_all_at doc_nested_body ["body"]).*1 = [[0]; [0; 0]]
  ∧ (skeleton_sources doc_nested_body).*1 = [[0; 0]; [0; 0; 0]]
  ∧ node_at doc_nested_body [0; 0; 0] = Some (Tag "p" ∅ [])
  ∧ extract_skeleton doc_nested_body
    = [ {| tag := "body"; id_attr := ""; classes := []; child_count := 1 |};
        {| tag := "p"; id_attr := ""; classes := []; child_count := 0 |} ]
  ∧ ¬ other_bodies_excluded doc_nested_body.
Proof.
  split_and!; try reflexivity.
  intros Hclaim.
  apply (Hclaim [0; 0; 0] (Tag "p" ∅ []) [0; 0]
           (Tag "body" ∅ [Tag "p" ∅ []])).
  - change (skeleton_sources doc_nested_body)
      with [([0; 0], Tag "body" ∅ [Tag "p" ∅ []]);
            ([0; 0; 0], Tag "p" ∅ [])].
    apply elem_of_cons; right. apply elem_of_cons; by left.
  - change (find_all_at doc_nested_body ["body"])
      with [([0], Tag "body" ∅ [Tag "body" ∅ [Tag "p" ∅ []]]);
            ([0; 0], Tag "body" ∅ [Tag "p" ∅ []])].
    apply elem_of_cons; right. apply elem_of_cons; by left.
  - change (find_at doc_nested_body "body")
      with (Some ([0], Tag "body" ∅ [Tag "body" ∅ [Tag "p" ∅ []]])).
    intros [=].
  - exists [0]. by split.
Qed.

(** C10 (first body only), amended.  [extract_skeleton] profiles elements
    of the first [body] in document order and of no other: every profile
    comes from a child of that [body] or from a child of one of its
    children, whatever else the document holds; a document without a
    [body] has no profile. *)
Theorem extract_skeleton_first_body soup :
  extract_skeleton soup = _make_profile <$> (skeleton_sources soup).*2
  ∧ match find_at soup "body" with
    | Some (parent, body) =>
        head (filter (λ pn, has_name ["body"] pn.2 = true)
                (descendants soup)) = Some (parent, body)
        ∧ Forall (below_body parent body) (skeleton_sources soup)
    | None => skeleton_sources soup = []
    end.
Proof.
  split; [apply skeleton_sources_profiles|].
  unfold skeleton_sources.
  destruct (find_at soup "body") as [[parent body]|] eqn:Hfind; [|done].
  split; [exact Hfind|].
  destruct body as [nm attrs cs|txt]; [|constructor].
  apply child_sources_below; [done|constructor].
Qed.

End first_body.

(** * Further properties of the matcher, as the program uses it *)

Section agreement.
Import difflib.
Context {A : Type} `{EqDecision A}.
Implicit Types (a b : list A) (best x : Match).
Implicit Types (j2len newj2len : gmap nat nat).

(** The positions that [b2j] lists for [a[i]] hold elements equal to
    [a[i]]. *)
Lemma b2j_get_same a b i j :
  j ∈ b2j_get (chain_b b) a i → same_at a b i j = true.
Proof.
  unfold b2j_get, same_at. destruct (a !! i) as [x|]; [|by intros ?%elem_of_nil].
  destruct (chain_b_get b x) as [-> | ->]; [by intros ?%elem_of_nil|].
  intros [_ Hj]%positions_bounds. rewrite Nat.sub_0_r in Hj. rewrite Hj.
  by apply bool_decide_eq_true.
Qed.

Lemma row_agree_empty a b i : row_agree a b i ∅.
Proof. intros j k Hjk. by rewrite lookup_empty in Hjk. Qed.

Lemma inner_loop_agree a b blo bhi i j2len js newj2len best :
  (∀ j, j ∈ js → same_at a b i j = true) →
  row_agree a b i j2len → row_agree a b (S i) newj2len → agree a b best →
  row_agree a b (S i) (inner_loop blo bhi i j2len js newj2len best).1
  ∧ agree a b (inner_loop blo bhi i j2len js newj2len best).2.
Proof.
  intros Hjs Hprev. revert newj2len best Hjs.
  induction js as [|j js IH]; intros newj2len best Hjs Hnew Hbest; [done|].
  cbn [inner_loop].
  assert (∀ j', j' ∈ js → same_at a b i j' = true) as Hjs'.
  { intros j' Hj'. apply Hjs. by right. }
  destruct (j <? blo); [by apply IH|].
  destruct (bhi <=? j); [done|].
  assert (same_at a b i j = true) as Hij by (apply Hjs; by left).
  set (k := j2lenget j2len j + 1).
  assert (k ≤ S i ∧ k ≤ j + 1
          ∧ ∀ t, t < k → same_at a b (i - t) (j - t) = true)
    as (Hk1 & Hk2 & Hk3).
  { unfold k. destruct j as [|j']; simpl.
    { split_and!; [lia|lia|]. intros t Ht.
      replace t with 0 by lia. by rewrite Nat.sub_0_r. }
    destruct (j2len !! j') as [k0|] eqn:Hk0; simpl.
    - destruct (Hprev _ _ Hk0) as (? & ? & Hrun).
      split_and!; [lia|lia|]. intros [|t] Ht.
      + by rewrite Nat.sub_0_r.
      + replace (i - S t) with (i - 1 - t) by lia. simpl.
        apply Hrun. lia.
    - split_and!; [lia|lia|]. intros t Ht.
      replace t with 0 by lia. by rewrite Nat.sub_0_r. }
  apply IH; [done| |].
  - intros j0 k0. rewrite lookup_insert.
    case_decide as Hjj; [|by apply Hnew].
    intros [= <-]. subst j0. split_and!; [done..|].
    intros t Ht. replace (S i - 1 - t) with (i - t) by lia. by apply Hk3.
  - destruct (best.2 <? k); [|done].
    intros t Ht. cbn [fst snd] in *.
    replace (i + 1 - k + t) with (i - (k - 1 - t)) by lia.
    replace (j + 1 - k + t) with (j - (k - 1 - t)) by lia.
    apply Hk3. lia.
Qed.

Lemma outer_loop_agree a b blo bhi rows i j2len best :
  row_agree a b i j2len → agree a b best →
  (∃ n, rows = seq i n) →
  agree a b (outer_loop a (chain_b b) blo bhi rows j2len best).
Proof.
  revert i j2len best.
  induction rows as [|r rows IH]; intros i j2len best Hrow Hbest [n Hn];
    [done|].
  destruct n as [|n]; [done|]. injection Hn as -> ->.
  cbn [outer_loop].
  destruct (inner_loop_agree a b blo bhi i j2len
              (b2j_get (chain_b b) a i) ∅ best) as [Hrow' Hbest'];
    [apply b2j_get_same|done|apply row_agree_empty|done|].
  destruct (inner_loop _ _ _ _ _ _ _) as [newj2len best'].
  apply (IH (S i)); [done|done|by exists n].
Qed.

Lemma extend_left_agree a b w alo blo besti bestj bestsize :
  agree a b (besti, bestj, bestsize) →
  agree a b (extend_left a b w alo blo besti bestj bestsize).
Proof.
  revert bestj bestsize.
  induction besti as [|i' IH]; intros bestj bestsize Hbest; [done|].
  cbn [extend_left]. destruct bestj as [|j']; [done|].
  destruct (_ && _) eqn:Hc; [|done].
  apply andb_prop in Hc as [_ Hsame]. apply IH.
  intros [|t] Ht; cbn [fst snd] in *.
  - by rewrite !Nat.add_0_r.
  - replace (i' + S t) with (S i' + t) by lia.
    replace (j' + S t) with (S j' + t) by lia. apply Hbest. simpl. lia.
Qed.

Lemma extend_right_loop_agree a b w bhi room besti bestj bestsize :
  agree a b (besti, bestj, bestsize) →
  agree a b (extend_right_loop a b w bhi room besti bestj bestsize).
Proof.
  revert bestsize.
  induction room as [|room IH]; intros bestsize Hbest; [done|].
  cbn [extend_right_loop]. destruct (_ && _) eqn:Hc; [|done].
  apply andb_prop in Hc as [_ Hsame]. apply IH.
  intros t Ht; cbn [fst snd] in *.
  destruct (decide (t = bestsize)) as [->|]; [done|].
  apply Hbest. simpl. lia.
Qed.

(** The block that [find_longest_match] returns pairs equal elements. *)
Lemma find_longest_match_agree a b alo ahi blo bhi :
  agree a b (find_longest_match a b (chain_b b) alo ahi blo bhi).
Proof.
  unfold find_longest_match.
  pose proof (outer_loop_agree a b blo bhi (seq alo (ahi - alo)) alo ∅
                (alo, blo, 0)) as Hout.
  destruct (outer_loop _ _ _ _ _ _ _) as [[bi bj] bs].
  assert (agree a b (bi, bj, bs)) as H1.
  { apply Hout; [apply row_agree_empty| |by eexists].
    intros t Ht. simpl in Ht. lia. }
  apply (extend_left_agree a b false alo blo) in H1.
  destruct (extend_left a b false alo blo bi bj bs) as [[bi1 bj1] bs1].
  unfold extend_right.
  apply (extend_right_loop_agree a b false bhi (ahi - (bi1 + bs1))) in H1.
  destruct (extend_right_loop a b false bhi _ bi1 bj1 bs1)
    as [[bi2 bj2] bs2].
  apply (extend_left_agree a b true alo blo) in H1.
  destruct (extend_left a b true alo blo bi2 bj2 bs2) as [[bi3 bj3] bs3].
  by apply extend_right_loop_agree.
Qed.

Lemma blocks_loop_agree a b fuel queue mb :
  Forall (agree a b) mb →
  Forall (agree a b) (blocks_loop a b (chain_b b) fuel queue mb).
Proof.
  revert queue mb. induction fuel as [|fuel IH]; intros queue mb Hmb; [done|].
  destruct queue as [|[[[alo ahi] blo] bhi] queue]; [done|].
  cbn [blocks_loop].
  pose proof (find_longest_match_agree a b alo ahi blo bhi) as Hx.
  destruct (find_longest_match a b (chain_b b) alo ahi blo bhi)
    as [[i j] k].
  destruct (k =? 0); [by apply IH|].
  apply IH. apply Forall_app. split; [done|]. by apply Forall_singleton.
Qed.

Lemma collapse_loop_agree a b i1 j1 k1 blocks acc :
  Forall (agree a b) (acc ++ (i1, j1, k1) :: blocks) →
  Forall (agree a b) (collapse_loop i1 j1 k1 blocks acc).
Proof.
  revert i1 j1 k1 acc.
  induction blocks as [|[[i2 j2] k2] blocks IH]; intros i1 j1 k1 acc.
  { cbn [collapse_loop]. destruct (k1 =? 0); [|done].
    rewrite Forall_app. tauto. }
  cbn [collapse_loop]. rewrite Forall_app, !Forall_cons.
  intros (Hacc & H1 & H2 & Hbl).
  destruct (Nat.eqb_spec (i1 + k1) i2) as [Hi|Hi];
    [destruct (Nat.eqb_spec (j1 + k1) j2) as [Hj|Hj]|]; cbn [andb];
    apply IH.
  - rewrite Forall_app, Forall_cons. split_and!; [done| |done].
    intros t Ht. cbn [fst snd] in *.
    destruct (decide (t < k1)) as [Hlt|Hge]; [by apply H1|].
    replace (i1 + t) with (i2 + (t - k1)) by lia.
    replace (j1 + t) with (j2 + (t - k1)) by lia.
    apply H2. simpl. lia.
  - destruct (k1 =? 0);
      rewrite ?Forall_app, ?Forall_cons, ?Forall_nil; done.
  - destruct (k1 =? 0);
      rewrite ?Forall_app, ?Forall_cons, ?Forall_nil; done.
Qed.

Lemma get_matching_blocks_agree a b :
  Forall (agree a b) (get_matching_blocks a b).
Proof.
  unfold get_matching_blocks. apply Forall_app. split.
  - apply collapse_loop_agree. cbn [app]. constructor.
    { intros t Ht. simpl in Ht. lia. }
    rewrite merge_sort_Permutation. apply blocks_loop_agree. constructor.
  - apply Forall_singleton. intros t Ht. simpl in Ht. lia.
Qed.

Lemma agree_slice a b i j k :
  agree a b (i, j, k) → differ.slice a i (i + k) = differ.slice b j (j + k).
Proof.
  intros Hx. unfold differ.slice.
  replace (i + k - i) with k by lia. replace (j + k - j) with k by lia.
  apply list_eq. intros t.
  destruct (decide (t < k)) as [Ht|Ht].
  - rewrite !lookup_take_lt, !lookup_drop by done.
    specialize (Hx t Ht). unfold same_at in Hx. cbn [fst snd] in Hx.
    destruct (a !! (i + t)), (b !! (j + t)); try done.
    by apply bool_decide_eq_true in Hx as ->.
  - rewrite !lookup_take_ge by lia. done.
Qed.

Lemma opcodes_loop_equal_ok a b i j blocks answer :
  Forall (agree a b) blocks → Forall (equal_ok a b) answer →
  Forall (equal_ok a b) (opcodes_loop i j blocks answer).
Proof.
  revert i j answer.
  induction blocks as [|[[ai bj] size] blocks IH]; intros i j answer Hbl Hans;
    [done|].
  inversion_clear Hbl as [|?? Hx Hbl']. cbn [opcodes_loop]. apply IH; [done|].
  assert (Forall (equal_ok a b)
    (if (i <? ai) && (j <? bj) then answer ++ [(Replace, i, ai, j, bj)]
     else if i <? ai then answer ++ [(Delete, i, ai, j, bj)]
     else if j <? bj then answer ++ [(Insert, i, ai, j, bj)]
     else answer)) as Hans1.
  { destruct (_ && _); [|destruct (i <? ai); [|destruct (j <? bj)]];
      rewrite ?Forall_app, ?Forall_singleton; try done; by split. }
  destruct (size =? 0); [done|].
  apply Forall_app. split; [done|]. apply Forall_singleton.
  intros _. by apply agree_slice.
Qed.

End agreement.

Section equal_regions.
Import difflib.
Context {A : Type} `{EqDecision A}.
Implicit Types (a b : list A).

Lemma get_opcodes_equal_ok a b : Forall (equal_ok a b) (get_opcodes a b).
Proof.
  unfold get_opcodes. apply opcodes_loop_equal_ok; [|constructor].
  apply get_matching_blocks_agree.
Qed.

(** X1.  Every ['equal'] opcode that the matcher hands to [skeleton_diff]
    lies over two identical slices, [old[i1:i2] == new[j1:j2]]: an
    ['equal'] region, which the scorer counts as no difference, holds no
    difference. *)
Theorem get_opcodes_equal_slices a b :
  Forall (equal_ok a b) (get_opcodes a b).
Proof. apply get_opcodes_equal_ok. Qed.

(** When the blocks leave no element of [a] and none of [b] unmatched, the
    two sequences agree position by position. *)
Lemma full_cover a b i j n m blocks :
  mono i j blocks → chain_end i j blocks = (n, m) →
  i + sum_list (map (λ x : Match, x.2) blocks) = n →
  j + sum_list (map (λ x : Match, x.2) blocks) = m →
  Forall (agree a b) blocks →
  ∀ t, t < n - i → same_at a b (i + t) (j + t) = true.
Proof.
  revert i j.
  induction blocks as [|[[ai bj] size] blocks IH];
    intros i j Hm He Hi Hj Hag t Ht.
  { simpl in *. lia. }
  destruct Hm as (Hia & Hjb & Hm). cbn [chain_end] in He.
  simpl in Hi, Hj.
  pose proof (mono_sum _ _ _ Hm) as [Hs1 Hs2]. rewrite He in Hs1, Hs2.
  cbn [fst snd] in Hs1, Hs2.
  assert (ai = i) as -> by lia. assert (bj = j) as -> by lia.
  inversion_clear Hag as [|?? Hx Hag'].
  destruct (decide (t < size)) as [Hlt|Hge]; [by apply Hx|].
  replace (i + t) with (i + size + (t - size)) by lia.
  replace (j + t) with (j + size + (t - size)) by lia.
  apply (IH (i + size) (j + size)); try done; lia.
Qed.

Lemma matches_full_eq a b :
  matches a b = length a → matches a b = length b → a = b.
Proof.
  intros Ha Hb. destruct (get_matching_blocks_mono a b) as [Hm He].
  pose proof (full_cover a b 0 0 (length a) (length b) _ Hm He Ha Hb
                (get_matching_blocks_agree a b)) as Hsame.
  apply list_eq. intros t. destruct (decide (t < length a)) as [Ht|Ht].
  - specialize (Hsame t ltac:(lia)). unfold same_at in Hsame. simpl in Hsame.
    destruct (a !! t), (b !! t); try done.
    by apply bool_decide_eq_true in Hsame as ->.
  - rewrite !lookup_ge_None_2; [done|lia|lia].
Qed.

(** The ratio of the matcher is [1] exactly for two identical sequences. *)
Lemma ratio_one_iff_equal a b : (ratio a b == 1)%Q ↔ a = b.
Proof.
  split.
  - intros Hr. destruct (matches_le a b) as [Ha Hb].
    destruct (calculate_ratio_matches (matches a b) (length a + length b))
      as [Hc|Hz].
    + fold (ratio a b) in Hc. rewrite Hr in Hc.
      assert (inject_Z (2 * Z.of_nat (matches a b))
              == inject_Z (Z.of_nat (length a + length b)))%Q as Heq.
      { rewrite inject_Z_mult. rewrite Hc. field. }
      apply (proj1 (inject_Z_injective _ _)) in Heq.
      apply matches_full_eq; lia.
    + destruct a, b; simpl in Hz; try lia. done.
  - intros ->. unfold ratio. rewrite matches_self.
    unfold calculate_ratio.
    destruct (Nat.eqb_spec (length b + length b) 0) as [|Hn]; [reflexivity|].
    assert (0 < inject_Z (Z.of_nat (length b)))%Q as Hpos.
    { change 0%Q with (inject_Z 0). rewrite <-Zlt_Qlt. lia. }
    rewrite Nat2Z.inj_add, inject_Z_plus. field. intros Hz. lra.
Qed.

Lemma outer_loop_disjoint a b blo bhi rows j2len best :
  disjoint a b →
  outer_loop a (chain_b b) blo bhi rows j2len best = best.
Proof.
  intros Hd. revert j2len.
  induction rows as [|i rows IH]; intros j2len; [done|].
  cbn [outer_loop].
  assert (b2j_get (chain_b b) a i = []) as ->.
  { destruct (b2j_get (chain_b b) a i) as [|j js] eqn:Hjs; [done|].
    assert (same_at a b i j = true) as Habs.
    { apply b2j_get_same. rewrite Hjs. by left. }
    by rewrite Hd in Habs. }
  cbn [inner_loop]. apply IH.
Qed.

Lemma extend_left_disjoint a b w alo blo besti bestj bestsize :
  disjoint a b →
  extend_left a b w alo blo besti bestj bestsize = (besti, bestj, bestsize).
Proof.
  intros Hd. destruct besti as [|i'], bestj as [|j']; try done.
  cbn [extend_left]. by rewrite Hd, andb_false_r.
Qed.

Lemma extend_right_loop_disjoint a b w bhi room besti bestj bestsize :
  disjoint a b →
  extend_right_loop a b w bhi room besti bestj bestsize
  = (besti, bestj, bestsize).
Proof.
  intros Hd. destruct room as [|room]; [done|].
  cbn [extend_right_loop]. by rewrite Hd, andb_false_r.
Qed.

Lemma find_longest_match_disjoint a b alo ahi blo bhi :
  disjoint a b →
  find_longest_match a b (chain_b b) alo ahi blo bhi = (alo, blo, 0).
Proof.
  intros Hd. unfold find_longest_match, extend_right.
  rewrite outer_loop_disjoint by done.
  rewrite extend_left_disjoint by done.
  rewrite extend_right_loop_disjoint by done.
  rewrite extend_left_disjoint by done.
  by rewrite extend_right_loop_disjoint.
Qed.

Lemma get_matching_blocks_disjoint a b :
  disjoint a b → get_matching_blocks a b = [(length a, length b, 0)].
Proof.
  intros Hd. unfold get_matching_blocks.
  replace (2 * length a + 1) with (S (2 * length a)) by lia.
  cbn [blocks_loop]. rewrite find_longest_match_disjoint by done.
  cbn [Nat.eqb]. by destruct (2 * length a).
Qed.

(** For two sequences without a common element the matcher finds nothing:
    the only opcode replaces all of the old sequence by all of the new one
    (or deletes, or inserts, when one of the two is empty). *)
Lemma get_opcodes_disjoint a b :
  disjoint a b →
  matches a b = 0
  ∧ get_opcodes a b
    = match a, b with
      | [], [] => []
      | _ :: _, [] => [(Delete, 0, length a, 0, 0)]
      | [], _ :: _ => [(Insert, 0, 0, 0, length b)]
      | _ :: _, _ :: _ => [(Replace, 0, length a, 0, length b)]
      end.
Proof.
  intros Hd. unfold matches, get_opcodes.
  rewrite get_matching_blocks_disjoint by done.
  split; [done|]. by destruct a, b.
Qed.

Lemma disjoint_singletons (x y : A) : x ≠ y → disjoint [x] [y].
Proof.
  intros Hne [|i] [|j]; unfold same_at; simpl; try done.
  by apply bool_decide_eq_false.
Qed.

Lemma disjoint_nil_r a : disjoint a [].
Proof. intros i j. unfold same_at. by destruct (a !! i). Qed.

Lemma disjoint_nil_l b : disjoint [] b.
Proof. intros i j. done. Qed.

End equal_regions.

(** * Further properties of the program *)

Section landmark_score.
Import differ.

Lemma disjoint_elem_of {A} `{EqDecision A} (a b : list A) :
  (∀ x, x ∈ a → x ∉ b) → disjoint a b.
Proof.
  intros Hab i j. unfold difflib.same_at.
  destruct (a !! i) as [x|] eqn:Hx; [|done].
  destruct (b !! j) as [y|] eqn:Hy; [|done].
  apply bool_decide_eq_false. intros ->.
  apply (Hab y); by eapply list_elem_of_lookup_2.
Qed.

Lemma landmark_diff_zero (old new : list string) :
  (landmark_diff old new == 0)%Q ↔ old = new.
Proof.
  split.
  - intros Hz. destruct old as [|o old], new as [|n new]; [done|..];
      unfold landmark_diff in Hz; apply ratio_one_iff_equal; lra.
  - intros ->. apply landmark_diff_self.
Qed.

(** X2.  The landmark score is [0] exactly when the two landmark
    sequences are identical. *)
Theorem landmark_diff_zero_iff (old new : list string) :
  (landmark_diff old new == 0)%Q ↔ old = new.
Proof. apply landmark_diff_zero. Qed.

(** X3.  When no tag occurs in both landmark sequences, and they are not
    both empty, the landmark score is [1]; in particular when exactly one
    of the two documents has landmarks. *)
Theorem landmark_diff_no_common_tag (old new : list string) :
  (∀ x, x ∈ old → x ∉ new) → 0 < length old + length new →
  (landmark_diff old new == 1)%Q.
Proof.
  intros Hd Hlen.
  destruct (get_opcodes_disjoint old new (disjoint_elem_of _ _ Hd))
    as [Hm _].
  assert (difflib.ratio old new == 0)%Q as Hr.
  { unfold difflib.ratio, difflib.calculate_ratio. rewrite Hm.
    destruct (Nat.eqb_spec (length old + length new) 0); [lia|].
    unfold Qdiv. change (inject_Z (Z.of_nat 0)) with 0%Q. ring. }
  unfold landmark_diff.
  destruct old, new; simpl in Hlen; try lia; rewrite Hr; reflexivity.
Qed.

Lemma landmark_diff_no_common_tag_witness :
  (landmark_diff ["header"; "nav"] ["footer"] == 1)%Q.
Proof.
  apply (landmark_diff_no_common_tag ["header"; "nav"] ["footer"]).
  - intros x. rewrite !elem_of_cons, !elem_of_nil.
    intros [->|[->|[]]]; intros [?|[]]; discriminate.
  - simpl. lia.
Defined.

End landmark_score.

Section node_distance_zero.
Import differ.
Implicit Types (p q : NodeProfile).

Lemma mismatch_zero (x y : string) : (mismatch x y == 0)%Q ↔ x = y.
Proof.
  unfold mismatch. case_decide; split; done.
Qed.

Lemma class_diff_zero (X Y : gset string) :
  (class_diff X Y == 0)%Q ↔ X = Y.
Proof.
  split; [|intros ->; apply class_diff_self].
  unfold class_diff. case_decide as Hne.
  - intros Hq.
    assert (size (X ∩ Y) ≤ size (X ∪ Y)) as Hsub
      by (apply subseteq_size; set_solver).
    assert (0 < size (X ∪ Y)) as Hpos.
    { destruct (decide (size (X ∪ Y) = 0)) as [Hz|]; [|lia].
      apply size_empty_inv, leibniz_equiv in Hz. exfalso.
      destruct Hne as [Hne|Hne]; apply Hne; set_solver. }
    assert (0 < inject_Z (Z.of_nat (size (X ∪ Y))))%Q as Hpos'.
    { change 0%Q with (inject_Z 0). rewrite <-Zlt_Qlt. lia. }
    assert (inject_Z (Z.of_nat (size (X ∩ Y)))
            == inject_Z (Z.of_nat (size (X ∪ Y))))%Q as Heq.
    { unfold true_div in Hq.
      assert (inject_Z (Z.of_nat (size (X ∩ Y)))
              / inject_Z (Z.of_nat (size (X ∪ Y))) == 1)%Q as H1 by lra.
      rewrite <-(Qmult_1_l (inject_Z (Z.of_nat (size (X ∪ Y))))).
      rewrite <-H1. field. intros Hz. lra. }
    apply (proj1 (inject_Z_injective _ _)) in Heq.
    assert (X ∩ Y = X ∪ Y) as Hsets.
    { apply set_subseteq_size_eq; [set_solver|lia]. }
    apply set_eq. intros x. split; intros Hx.
    + assert (x ∈ X ∩ Y) by (rewrite Hsets; set_solver). set_solver.
    + assert (x ∈ X ∩ Y) by (rewrite Hsets; set_solver). set_solver.
  - intros _. destruct (decide (X = ∅)) as [->|]; [|tauto].
    destruct (decide (Y = ∅)) as [->|]; [done|tauto].
Qed.

Lemma child_diff_zero (n m : nat) : (child_diff n m == 0)%Q ↔ n = m.
Proof.
  split; [|intros ->; apply child_diff_self].
  unfold child_diff. destruct (Nat.ltb_spec 0 (n `max` m)) as [Hpos|]; [|lia].
  intros Hq. unfold true_div in Hq.
  assert (0 < inject_Z (Z.of_nat (n `max` m)))%Q as Hpos'.
  { change 0%Q with (inject_Z 0). rewrite <-Zlt_Qlt. lia. }
  assert (inject_Z (Z.abs (Z.of_nat n - Z.of_nat m)) == inject_Z 0)%Q as Heq.
  { change (inject_Z 0) with 0%Q.
    rewrite <-(Qmult_0_l (inject_Z (Z.of_nat (n `max` m)))).
    rewrite <-Hq. field. intros Hz. lra. }
  apply (proj1 (inject_Z_injective _ _)) in Heq. lia.
Qed.

Lemma node_diff_zero p q :
  (node_diff p q == 0)%Q ↔ same_up_to_class_order p q.
Proof.
  rewrite node_diff_unfold. unfold same_up_to_class_order.
  rewrite <-mismatch_zero, <-(mismatch_zero (id_attr p)), <-class_diff_zero,
    <-child_diff_zero.
  destruct (mismatch_bounds (tag p) (tag q)).
  destruct (mismatch_bounds (id_attr p) (id_attr q)).
  destruct (class_diff_bounds (list_to_set (classes p))
              (list_to_set (classes q))).
  destruct (child_diff_bounds (child_count p) (child_count q)).
  unfold TAG_WEIGHT, CLASS_WEIGHT, ID_WEIGHT, CHILD_COUNT_WEIGHT.
  split.
  - intros Hz. split_and!; lra.
  - intros (Ht & Hc & Hi & Hn). rewrite Ht, Hc, Hi, Hn. ring.
Qed.

(** X4.  The node distance of two profiles is [0] exactly when they have
    the same tag, the same id, the same child count and the same class
    tokens, in any order and with any repetitions. *)
Theorem node_diff_zero_iff p q :
  (node_diff p q == 0)%Q ↔ same_up_to_class_order p q.
Proof. apply node_diff_zero. Qed.

End node_distance_zero.

Section skeleton_score.
Import differ.
Implicit Types (old new : list NodeProfile) (p q : NodeProfile).

Lemma replace_loop_acc old new ks (d : Q) :
  (replace_loop old new ks d == d + replace_loop old new ks 0)%Q.
Proof.
  revert d. induction ks as [|k ks IH]; intros d; cbn [replace_loop].
  { ring. }
  rewrite IH. rewrite (IH (match old !! k, new !! k with
                           | Some o, Some n => 0 + node_diff o n
                           | _, _ => 0 + 1
                           end)%Q).
  destruct (old !! k), (new !! k); ring.
Qed.

Lemma replace_loop_cons o old n new i c (d : Q) :
  replace_loop (o :: old) (n :: new) (seq (S i) c) d
  = replace_loop old new (seq i c) d.
Proof.
  revert i d. induction c as [|c IH]; intros i d; [done|].
  cbn [seq replace_loop]. by rewrite IH.
Qed.

Lemma replace_loop_unpaired old new ks (d : Q) :
  old = [] ∨ new = [] →
  (replace_loop old new ks d == d + inject_Z (Z.of_nat (length ks)))%Q.
Proof.
  intros Hempty. revert d. induction ks as [|k ks IH]; intros d.
  { cbn [replace_loop length]. change (inject_Z (Z.of_nat 0)) with 0%Q. ring. }
  cbn [replace_loop length]. rewrite IH, Nat2Z.inj_succ.
  unfold Z.succ. rewrite inject_Z_plus. change (inject_Z 1) with 1%Q.
  assert (match old !! k, new !! k with
          | Some o, Some n => d + node_diff o n
          | _, _ => d + 1
          end = d + 1)%Q as ->.
  { destruct Hempty as [-> | ->]; [done|]. by destruct (old !! k). }
  ring.
Qed.

Lemma replace_loop_paired old new :
  (replace_loop old new (seq 0 (length old `max` length new)) 0
   == paired_distance old new)%Q.
Proof.
  revert new. induction old as [|o old IH]; intros new.
  { rewrite replace_loop_unpaired by (by left).
    rewrite length_seq. destruct new; simpl; ring. }
  destruct new as [|n new].
  { rewrite replace_loop_unpaired by (by right).
    rewrite length_seq. simpl. ring. }
  cbn [length paired_distance]. rewrite <-Nat.succ_max_distr.
  cbn [seq replace_loop lookup list_lookup].
  rewrite replace_loop_cons, replace_loop_acc, IH. ring.
Qed.

Lemma slice_all {X} (l : list X) : slice l 0 (length l) = l.
Proof. unfold slice. rewrite Nat.sub_0_r, drop_0. by apply take_ge. Qed.

(** X5.  When no profile occurs in both skeleton sequences (and neither is
    empty), the aligner yields a single ['replace'] region that spans both
    sequences, so they are paired position by position: the skeleton score
    is the sum of the node distances of the pairs, plus [1] for every
    profile of the longer sequence left without a partner, divided by the
    length of the longer sequence. *)
Theorem skeleton_diff_no_common_profile old new :
  old ≠ [] → new ≠ [] → (∀ p, p ∈ old → p ∉ new) →
  difflib.get_opcodes old new
  = [(difflib.Replace, 0, length old, 0, length new)]
  ∧ (skeleton_diff old new
     == paired_distance old new
        / inject_Z (Z.of_nat (length old `max` length new)))%Q.
Proof.
  intros Ho Hn Hd.
  destruct (get_opcodes_disjoint old new (disjoint_elem_of _ _ Hd))
    as [_ Hops].
  destruct old as [|o old'], new as [|n new']; try done.
  split; [exact Hops|].
  unfold skeleton_diff. rewrite Hops. cbn [fold_left opcode_step].
  rewrite !slice_all, Z.add_0_l.
  destruct (Z.ltb_spec 0
              (Z.of_nat (length (o :: old') `max` length (n :: new'))));
    [|simpl in *; lia].
  by rewrite replace_loop_paired.
Qed.

Lemma skeleton_diff_no_common_profile_witness :
  difflib.get_opcodes [profile_a_b] [a_profile; profile_b_a]
  = [(difflib.Replace, 0, 1, 0, 2)]
  ∧ (skeleton_diff [profile_a_b] [a_profile; profile_b_a]
     == paired_distance [profile_a_b] [a_profile; profile_b_a]
        / inject_Z (Z.of_nat 2))%Q.
Proof.
  apply (skeleton_diff_no_common_profile
           [profile_a_b] [a_profile; profile_b_a]); [done|done|].
  intros p. rewrite !elem_of_cons, !elem_of_nil.
  intros [->|[]]; intros [?|[?|[]]]; discriminate.
Defined.

End skeleton_score.

Section skeleton_zero.
Import differ.
Implicit Types (old new : list NodeProfile) (p q : NodeProfile).
Implicit Types (acc : Q * Z).

Lemma same_up_to_class_order_refl p : same_up_to_class_order p p.
Proof. by split_and!. Qed.

Lemma paired_distance_nonneg old new : (0 <= paired_distance old new)%Q.
Proof.
  revert new. induction old as [|o old IH]; intros new.
  { destruct new; simpl; change 0%Q with (inject_Z 0);
      rewrite <-Zle_Qle; lia. }
  destruct new as [|n new].
  { simpl. change 0%Q with (inject_Z 0). rewrite <-Zle_Qle. lia. }
  cbn [paired_distance]. destruct (node_diff_bounds o n). specialize (IH new).
  lra.
Qed.

Lemma paired_distance_zero old new :
  (paired_distance old new == 0)%Q →
  Forall2 same_up_to_class_order old new.
Proof.
  revert new. induction old as [|o old IH]; intros new Hz.
  { destruct new as [|n new]; [constructor|]. exfalso.
    cbn [paired_distance] in Hz. change 0%Q with (inject_Z 0) in Hz.
    apply (proj1 (inject_Z_injective _ _)) in Hz. simpl in Hz. lia. }
  destruct new as [|n new].
  { exfalso. cbn [paired_distance] in Hz. change 0%Q with (inject_Z 0) in Hz.
    apply (proj1 (inject_Z_injective _ _)) in Hz. simpl in Hz. lia. }
  cbn [paired_distance] in Hz.
  destruct (node_diff_bounds o n).
  pose proof (paired_distance_nonneg old new).
  constructor.
  - apply node_diff_zero. lra.
  - apply IH. lra.
Qed.

(** One round of the scoring loop never lowers the accumulated
    difference. *)
Lemma opcode_step_mono old new acc oc :
  ordered oc → (acc.1 <= (opcode_step old new acc oc).1)%Q.
Proof.
  destruct acc as [d c], oc as [[[[t i1] i2] j1] j2]. intros [Hi Hj].
  unfold opcode_step. destruct t; cbn [fst snd].
  - apply replace_loop_bounds.
  - assert (0 <= inject_Z (Z.of_nat i2 - Z.of_nat i1))%Q.
    { change 0%Q with (inject_Z 0). rewrite <-Zle_Qle. lia. }
    lra.
  - assert (0 <= inject_Z (Z.of_nat j2 - Z.of_nat j1))%Q.
    { change 0%Q with (inject_Z 0). rewrite <-Zle_Qle. lia. }
    lra.
  - lra.
Qed.

Lemma fold_opcode_step_mono old new ops acc :
  Forall ordered ops →
  (acc.1 <= (fold_left (opcode_step old new) ops acc).1)%Q.
Proof.
  revert acc. induction ops as [|oc ops IH]; intros acc Hops.
  { simpl. lra. }
  inversion_clear Hops as [|?? Hoc Hops']. cbn [fold_left].
  pose proof (opcode_step_mono old new acc oc Hoc).
  specialize (IH (opcode_step old new acc oc) Hops'). lra.
Qed.

Lemma slice_split {X} (l : list X) i k n :
  i ≤ k → k ≤ n → slice l i n = slice l i k ++ slice l k n.
Proof.
  intros Hik Hkn. unfold slice.
  replace (n - i) with ((k - i) + (n - k)) by lia.
  rewrite <-take_take_drop, drop_drop.
  by replace (i + (k - i)) with k by lia.
Qed.

(** If the scoring loop adds nothing over a run of opcodes, the part of
    the two sequences under these opcodes is paired off by profiles that
    [node_diff] cannot tell apart. *)
Lemma fold_opcode_step_zero old new ops i j n m acc :
  tiles i j ops n m → Forall (equal_ok old new) ops →
  ((fold_left (opcode_step old new) ops acc).1 == acc.1)%Q →
  Forall2 same_up_to_class_order (slice old i n) (slice new j m).
Proof.
  revert i j acc.
  induction ops as [|[[[[t i1] i2] j1] j2] ops IH]; intros i j acc Ht Heq Hz.
  { destruct Ht as [-> ->]. unfold slice. rewrite !Nat.sub_diag.
    constructor. }
  destruct Ht as (-> & -> & Hsh & Ht).
  inversion_clear Heq as [|?? Hoc Heq'].
  pose proof (tiles_ordered _ _ _ _ _ Ht) as Hord.
  destruct (tiles_ranges _ _ _ _ _ Ht) as (Hin & Hjm & _).
  assert (i ≤ i2 ∧ j ≤ j2) as [Hi Hj] by (destruct t; simpl in Hsh; lia).
  cbn [fold_left] in Hz.
  pose proof (fold_opcode_step_mono old new ops
                (opcode_step old new acc (t, i, i2, j, j2)) Hord) as Hmono.
  pose proof (opcode_step_mono old new acc (t, i, i2, j, j2)
                (conj Hi Hj)) as Hstep.
  rewrite (slice_split old i i2 n), (slice_split new j j2 m) by done.
  apply Forall2_app.
  - destruct acc as [d c]. unfold opcode_step in Hstep, Hmono, Hz.
    destruct t; cbn [fst snd] in *.
    + apply paired_distance_zero.
      rewrite <-replace_loop_paired.
      pose proof (replace_loop_acc (slice old i i2) (slice new j j2)
                    (seq 0 (length (slice old i i2)
                            `max` length (slice new j j2))) d) as Hacc.
      destruct (replace_loop_bounds (slice old i i2) (slice new j j2)
                  (seq 0 (length (slice old i i2)
                          `max` length (slice new j j2))) 0) as [Hnn _].
      lra.
    + exfalso.
      assert (1 <= inject_Z (Z.of_nat i2 - Z.of_nat i))%Q.
      { change 1%Q with (inject_Z 1). rewrite <-Zle_Qle.
        simpl in Hsh. lia. }
      lra.
    + exfalso.
      assert (1 <= inject_Z (Z.of_nat j2 - Z.of_nat j))%Q.
      { change 1%Q with (inject_Z 1). rewrite <-Zle_Qle.
        simpl in Hsh. lia. }
      lra.
    + rewrite (Hoc eq_refl).
      apply Forall_Forall2_diag, Forall_forall.
      intros ??. apply same_up_to_class_order_refl.
  - apply (IH i2 j2 (opcode_step old new acc (t, i, i2, j, j2))); [done..|].
    lra.
Qed.

Lemma skeleton_diff_zero_paired old new :
  (skeleton_diff old new == 0)%Q →
  Forall2 same_up_to_class_order old new.
Proof.
  unfold skeleton_diff. destruct old as [|o old'], new as [|n new'];
    [constructor|intros Hz; by exfalso..|].
  set (old := o :: old'). set (new := n :: new').
  pose proof (get_opcodes_tiles old new) as Ht.
  pose proof (get_opcodes_equal_ok old new) as Heq.
  pose proof (fold_opcode_step_ok old new (difflib.get_opcodes old new)
                (0%Q, 0%Z) (tiles_ordered _ _ _ _ _ Ht)) as Hok.
  pose proof (fold_opcode_step_zero old new (difflib.get_opcodes old new)
                0 0 (length old) (length new) (0%Q, 0%Z) Ht Heq) as Hzero.
  destruct (fold_left _ _ _) as [d c].
  destruct Hok as [[Hd1 Hd2] Hc].
  { split; simpl; [change (inject_Z 0) with 0%Q; split; lra|lia]. }
  cbn [fst snd] in *.
  rewrite !slice_all in Hzero.
  destruct (Z.ltb_spec 0 c) as [Hpos|Hle]; intros Hz; apply Hzero.
  - assert (0 < inject_Z c)%Q as Hpos'.
    { change 0%Q with (inject_Z 0). rewrite <-Zlt_Qlt. lia. }
    rewrite <-(Qmult_0_l (inject_Z c)), <-Hz. field. intros Hc0. lra.
  - assert (inject_Z c <= 0)%Q.
    { change 0%Q with (inject_Z 0). rewrite <-Zle_Qle. lia. }
    lra.
Qed.

(** X6.  A skeleton score of [0] means that the two skeleton sequences
    have the same length and that their profiles agree, position by
    position, on tag, id, child count and class tokens (in any order). *)
Theorem skeleton_diff_zero old new :
  (skeleton_diff old new == 0)%Q →
  Forall2 same_up_to_class_order old new.
Proof. apply skeleton_diff_zero_paired. Qed.

Lemma skeleton_diff_zero_witness :
  Forall2 same_up_to_class_order [profile_a_b] [profile_b_a].
Proof.
  apply (skeleton_diff_zero [profile_a_b] [profile_b_a]). reflexivity.
Defined.

End skeleton_zero.

(** * Further properties of the two extractors *)

Section tree_facts.
Import bs4 differ.
Implicit Types (n c : node) (cs soup : list node).

Lemma weight_Tag nm attrs cs :
  weight (Tag nm attrs cs) = S (forest_weight cs).
Proof.
  unfold forest_weight. cbn [weight]. f_equal.
  induction cs as [|c cs IH]; [done|]. cbn [map]. simpl. by rewrite IH.
Qed.

Lemma forest_weight_cons c cs :
  forest_weight (c :: cs) = weight c + forest_weight cs.
Proof. reflexivity. Qed.

(** Induction on a list of trees: the children of the first tree and the
    rest of the list are both smaller. *)
Lemma forest_ind (P : list node → Prop) :
  P [] →
  (∀ t cs, P cs → P (NavigableString t :: cs)) →
  (∀ nm attrs ch cs, P ch → P cs → P (Tag nm attrs ch :: cs)) →
  ∀ cs, P cs.
Proof.
  intros Hnil Hstr Htag cs.
  remember (forest_weight cs) as w eqn:Hw.
  assert (forest_weight cs ≤ w) as Hle by lia. clear Hw.
  revert cs Hle. induction w as [|w IH]; intros cs Hle.
  { destruct cs as [|[nm attrs ch|t] cs]; [done|..];
      rewrite forest_weight_cons in Hle;
      [rewrite weight_Tag in Hle|simpl in Hle]; lia. }
  destruct cs as [|[nm attrs ch|t] cs]; [done|..];
    rewrite forest_weight_cons in Hle.
  - rewrite weight_Tag in Hle. apply Htag; apply IH; lia.
  - simpl in Hle. apply Hstr, IH. lia.
Qed.

Lemma descendants_at_Tag nm attrs cs :
  descendants_at (Tag nm attrs cs) = forest_at 0 cs.
Proof.
  cbn [descendants_at]. generalize 0.
  induction cs as [|c cs IH]; intros k; [done|].
  cbn [forest_at]. by rewrite IH.
Qed.

Lemma snd_prod_map_cons k (l : list (path * node)) :
  (prod_map (cons k) id <$> l).*2 = l.*2.
Proof. induction l as [|[p n] l IH]; [done|]. cbn. by rewrite <-IH. Qed.

Lemma forest_at_nodes k cs : (forest_at k cs).*2 = (forest_at 0 cs).*2.
Proof.
  generalize 0. revert k.
  induction cs as [|c cs IH]; intros k k'; [done|].
  cbn [forest_at]. rewrite !fmap_cons, !fmap_app, !snd_prod_map_cons.
  by rewrite (IH (S k) (S k')).
Qed.

(** All the nodes of a list of trees, in document order: each tree, then
    what is below it, then the trees after it. *)
Lemma all_nodes_cons c cs :
  (descendants (c :: cs)).*2
  = c :: (descendants (children c)).*2 ++ (descendants cs).*2.
Proof.
  unfold descendants. cbn [forest_at].
  rewrite fmap_cons, fmap_app, snd_prod_map_cons, (forest_at_nodes 1).
  cbn [snd]. do 2 f_equal.
  destruct c as [nm attrs ch|t]; [|done].
  by rewrite descendants_at_Tag.
Qed.

Lemma filter_snd (f : node → bool) (l : list (path * node)) :
  (filter (λ pn, f pn.2 = true) l).*2 = filter (λ n, f n = true) (l.*2).
Proof.
  induction l as [|[p n] l IH]; [done|].
  rewrite fmap_cons, !filter_cons. cbn [snd].
  destruct (decide (f n = true)); [rewrite fmap_cons|]; by rewrite IH.
Qed.

Lemma find_all_nodes soup names :
  find_all soup names
  = filter (λ n, has_name names n = true) ((descendants soup).*2).
Proof.
  unfold find_all, find_all_at.
  apply (filter_snd (has_name names)).
Qed.

Lemma find_nodes soup nm :
  find soup nm
  = head (filter (λ n, has_name [nm] n = true) ((descendants soup).*2)).
Proof.
  unfold find, find_at.
  rewrite <-(filter_snd (has_name [nm])). unfold find_all_at.
  by destruct (filter _ _) as [|[p n] l].
Qed.

End tree_facts.

Section landmark_extractor.
Import bs4 differ.
Implicit Types (soup rest cs : list node).

Lemma extract_landmarks_nodes soup :
  extract_landmarks soup
  = name <$> filter (λ t, is_tag t = true)
               (filter (λ n, has_name LANDMARK_TAGS n = true)
                  ((descendants soup).*2)).
Proof. unfold extract_landmarks. by rewrite find_all_nodes. Qed.

(** X7.  [extract_landmarks] lists the landmark elements in document
    order and at every depth: an element comes before what it contains,
    and that before what follows it; text is passed over; and every name
    listed is one of the seven landmark tags. *)
Theorem extract_landmarks_preorder :
  extract_landmarks [] = []
  ∧ (∀ t rest,
       extract_landmarks (NavigableString t :: rest) = extract_landmarks rest)
  ∧ (∀ nm attrs cs rest,
       extract_landmarks (Tag nm attrs cs :: rest)
       = (if bool_decide (nm ∈ LANDMARK_TAGS) then [nm] else [])
         ++ extract_landmarks cs ++ extract_landmarks rest)
  ∧ (∀ soup, Forall (λ nm, nm ∈ LANDMARK_TAGS) (extract_landmarks soup)).
Proof.
  split_and!.
  - done.
  - intros t rest. rewrite !extract_landmarks_nodes, all_nodes_cons.
    rewrite filter_cons. cbn [has_name children].
    rewrite decide_False by done. done.
  - intros nm attrs cs rest.
    rewrite !extract_landmarks_nodes, all_nodes_cons.
    rewrite filter_cons, !filter_app. cbn [has_name children].
    destruct (bool_decide (nm ∈ LANDMARK_TAGS)) eqn:Hnm.
    + rewrite decide_True by done. rewrite filter_cons.
      rewrite decide_True by done.
      by rewrite fmap_cons, filter_app, fmap_app.
    + rewrite decide_False by done. by rewrite filter_app, fmap_app.
  - intros soup. rewrite extract_landmarks_nodes. apply Forall_forall.
    intros nm (n & -> & [_ [Hn _]%list_elem_of_filter]%list_elem_of_filter)
             %list_elem_of_fmap.
    destruct n as [nm attrs cs|t]; [|done].
    by apply bool_decide_eq_true in Hn.
Qed.

End landmark_extractor.

Section skeleton_extractor.
Import bs4 differ.
Implicit Types (soup cs gs : list node) (profiles : list NodeProfile).

Lemma grandchild_loop_flat gs profiles :
  grandchild_loop gs profiles
  = profiles ++ (_make_profile <$> filter (λ g, ignored g = false) gs).
Proof.
  revert profiles. induction gs as [|g gs IH]; intros profiles.
  { by rewrite app_nil_r. }
  cbn [grandchild_loop]. rewrite filter_cons.
  destruct (ignored g) eqn:Hg; rewrite IH.
  - by rewrite decide_False by done.
  - rewrite decide_True by done. by rewrite fmap_cons, <-app_assoc.
Qed.

Lemma child_loop_flat cs profiles :
  child_loop cs profiles = profiles ++ flat_map family cs.
Proof.
  revert profiles. induction cs as [|c cs IH]; intros profiles.
  { by rewrite app_nil_r. }
  cbn [child_loop flat_map]. unfold family at 1.
  destruct (ignored c); rewrite IH; [done|].
  by rewrite grandchild_loop_flat, <-!app_assoc.
Qed.

Lemma extract_skeleton_flat soup :
  extract_skeleton soup
  = match find soup "body" with
    | Some body => flat_map family (children body)
    | None => []
    end.
Proof.
  unfold extract_skeleton.
  destruct (find soup "body") as [[nm attrs cs|t]|]; [|done..].
  by rewrite child_loop_flat.
Qed.

(** X8.  The skeleton is made of the children of the first [body], each
    one followed at once by its own children: a child contributes its
    profile and those of its children that are not ignored; an ignored
    child, or a node that is not an element, contributes nothing, and
    neither do its children. *)
Theorem extract_skeleton_families soup :
  extract_skeleton soup
  = match find soup "body" with
    | Some body => flat_map family (children body)
    | None => []
    end.
Proof. apply extract_skeleton_flat. Qed.

Lemma not_ignored_tag (e : node) :
  ignored e = false → tag (_make_profile e) ∉ IGNORED_TAGS.
Proof.
  unfold ignored. intros [_ Hn]%orb_false_elim.
  by apply bool_decide_eq_false in Hn.
Qed.

(** X9.  No profile of the skeleton carries an ignored tag ([script],
    [style], [link], [meta], [noscript], [template]). *)
Theorem extract_skeleton_no_ignored_tag soup :
  Forall (λ p, tag p ∉ IGNORED_TAGS) (extract_skeleton soup).
Proof.
  rewrite extract_skeleton_flat.
  destruct (find soup "body") as [body|]; [|constructor].
  apply Forall_forall. intros p Hp.
  apply list_elem_of_In, in_flat_map in Hp as (c & _ & Hp).
  apply list_elem_of_In in Hp. unfold family in Hp.
  destruct (ignored c) eqn:Hc; [by apply elem_of_nil in Hp|].
  apply elem_of_cons in Hp as [->|Hp]; [by apply not_ignored_tag|].
  apply list_elem_of_fmap in Hp as (g & -> & [Hg _]%list_elem_of_filter).
  by apply not_ignored_tag.
Qed.

End skeleton_extractor.

Section text_nodes.
Import bs4 differ.
Implicit Types (soup cs : list node) (c : node).

Lemma strip_text_Tag nm attrs cs :
  strip_text (Tag nm attrs cs) = Tag nm attrs (strip_forest cs).
Proof.
  cbn [strip_text]. f_equal. unfold strip_forest.
  induction cs as [|c cs IH]; [done|].
  rewrite filter_cons. destruct (is_tag c) eqn:Hc.
  - rewrite decide_True by done. by rewrite fmap_cons, IH.
  - by rewrite decide_False by done.
Qed.

Lemma strip_forest_cons_tag nm attrs ch cs :
  strip_forest (Tag nm attrs ch :: cs)
  = Tag nm attrs (strip_forest ch) :: strip_forest cs.
Proof.
  unfold strip_forest at 1. rewrite filter_cons, decide_True by done.
  by rewrite fmap_cons, strip_text_Tag.
Qed.

Lemma strip_forest_cons_text t cs :
  strip_forest (NavigableString t :: cs) = strip_forest cs.
Proof. unfold strip_forest. by rewrite filter_cons, decide_False by done. Qed.

Lemma make_profile_strip nm attrs ch :
  _make_profile (Tag nm attrs (strip_forest ch))
  = _make_profile (Tag nm attrs ch).
Proof.
  unfold _make_profile. cbn [name get children]. f_equal.
  induction ch as [|[nm' attrs' ch'|t] ch IH]; [done|..].
  - rewrite strip_forest_cons_tag, !filter_cons, !decide_True by done.
    cbn [length]. by rewrite IH.
  - rewrite strip_forest_cons_text, filter_cons, decide_False by done. done.
Qed.

Lemma not_ignored_strip cs :
  _make_profile <$> filter (λ g, ignored g = false) (strip_forest cs)
  = _make_profile <$> filter (λ g, ignored g = false) cs.
Proof.
  induction cs as [|[nm attrs ch|t] cs IH]; [done|..].
  - rewrite strip_forest_cons_tag, !filter_cons.
    change (ignored (Tag nm attrs (strip_forest ch)))
      with (ignored (Tag nm attrs ch)).
    destruct (decide (ignored (Tag nm attrs ch) = false)); [|done].
    by rewrite !fmap_cons, make_profile_strip, IH.
  - rewrite strip_forest_cons_text, filter_cons, decide_False by done. done.
Qed.

Lemma family_strip cs :
  flat_map family (strip_forest cs) = flat_map family cs.
Proof.
  induction cs as [|[nm attrs ch|t] cs IH]; [done|..].
  - rewrite strip_forest_cons_tag. cbn [flat_map]. rewrite IH. f_equal.
    unfold family.
    change (ignored (Tag nm attrs (strip_forest ch)))
      with (ignored (Tag nm attrs ch)).
    destruct (ignored (Tag nm attrs ch)); [done|].
    cbn [children]. by rewrite make_profile_strip, not_ignored_strip.
  - by rewrite strip_forest_cons_text.
Qed.

Lemma filter_nodes_strip names cs :
  filter (λ n, has_name names n = true) ((descendants (strip_forest cs)).*2)
  = strip_text
    <$> filter (λ n, has_name names n = true) ((descendants cs).*2).
Proof.
  induction cs as [|t cs IH|nm attrs ch cs IHch IHcs] using forest_ind.
  - done.
  - rewrite strip_forest_cons_text, IH, all_nodes_cons, filter_cons.
    by rewrite decide_False by done.
  - rewrite strip_forest_cons_tag, !all_nodes_cons, !filter_cons, !filter_app.
    cbn [children]. rewrite IHch, IHcs.
    change (has_name names (Tag nm attrs (strip_forest ch)))
      with (has_name names (Tag nm attrs ch)).
    destruct (decide (has_name names (Tag nm attrs ch) = true));
      by rewrite ?fmap_cons, ?fmap_app, ?strip_text_Tag.
Qed.

Lemma extract_landmarks_strip soup :
  extract_landmarks (strip_forest soup) = extract_landmarks soup.
Proof.
  rewrite !extract_landmarks_nodes, filter_nodes_strip.
  generalize (filter (λ n, has_name LANDMARK_TAGS n = true)
                ((descendants soup).*2)).
  intros l. induction l as [|[nm attrs ch|t] l IH]; [done|..].
  - rewrite fmap_cons, strip_text_Tag, !filter_cons, !decide_True by done.
    by rewrite !fmap_cons, IH.
  - rewrite fmap_cons, !filter_cons. cbn [strip_text].
    by rewrite !decide_False by done.
Qed.

Lemma extract_skeleton_strip soup :
  extract_skeleton (strip_forest soup) = extract_skeleton soup.
Proof.
  rewrite !extract_skeleton_flat, !find_nodes, filter_nodes_strip.
  generalize (filter (λ n, has_name ["body"] n = true)
                ((descendants soup).*2)).
  intros [|[nm attrs ch|t] l]; [done|..].
  - rewrite fmap_cons, strip_text_Tag. cbn [head children].
    apply family_strip.
  - done.
Qed.

(** X10.  Text, comments and other non-element nodes never matter: with
    all of them removed, at every depth, a document yields the same
    landmarks and the same skeleton, and so the same score against any
    other document, on either side. *)
Theorem text_nodes_do_not_matter soup :
  extract_landmarks (strip_forest soup) = extract_landmarks soup
  ∧ extract_skeleton (strip_forest soup) = extract_skeleton soup
  ∧ ∀ other,
      diff_score (strip_forest soup) other = diff_score soup other
      ∧ diff_score other (strip_forest soup) = diff_score other soup.
Proof.
  split_and!.
  - apply extract_landmarks_strip.
  - apply extract_skeleton_strip.
  - intros other. unfold diff_score.
    by rewrite extract_landmarks_strip, extract_skeleton_strip.
Qed.

End text_nodes.

(** * Further properties of the combined score and of its label *)

Section combined_score.
Import bs4 differ.
Implicit Types (old_soup new_soup soup : BeautifulSoup).

(** X11.  A combined score of [0] means that the two documents have the
    same landmark sequence, and skeleton sequences of the same length whose
    profiles agree, position by position, on tag, id, child count and class
    tokens (in any order). *)
Theorem diff_score_zero old_soup new_soup :
  (diff_score old_soup new_soup == 0)%Q →
  extract_landmarks old_soup = extract_landmarks new_soup
  ∧ Forall2 same_up_to_class_order
      (extract_skeleton old_soup) (extract_skeleton new_soup).
Proof.
  unfold diff_score, LANDMARK_WEIGHT, SKELETON_WEIGHT. intros Hz.
  destruct (landmark_diff_bounds (extract_landmarks old_soup)
              (extract_landmarks new_soup)).
  destruct (skeleton_diff_bounds (extract_skeleton old_soup)
              (extract_skeleton new_soup)).
  split.
  - apply landmark_diff_zero. lra.
  - apply skeleton_diff_zero_paired. lra.
Qed.

Lemma diff_score_zero_witness :
  extract_landmarks doc_nested_body = extract_landmarks doc_nested_body
  ∧ Forall2 same_up_to_class_order
      (extract_skeleton doc_nested_body) (extract_skeleton doc_nested_body).
Proof.
  apply (diff_score_zero doc_nested_body doc_nested_body). reflexivity.
Defined.

(** X12.  Against a document that has neither landmarks nor a skeleton
    (no [body], for one), the combined score is [0.40] if the other
    document has landmarks plus [0.60] if it has a skeleton, whichever of
    the two is the old one. *)
Theorem diff_score_against_bare soup other :
  extract_landmarks soup = [] → extract_skeleton soup = [] →
  (diff_score soup other
   == (if length (extract_landmarks other) =? 0 then 0 else 0.40)
      + (if length (extract_skeleton other) =? 0 then 0 else 0.60))%Q
  ∧ (diff_score other soup == diff_score soup other)%Q.
Proof.
  intros Hl Hs. unfold diff_score, LANDMARK_WEIGHT, SKELETON_WEIGHT.
  rewrite Hl, Hs, landmark_diff_empty_l, landmark_diff_empty_r.
  assert (skeleton_diff [] (extract_skeleton other)
          = if length (extract_skeleton other) =? 0 then 0%Q else 1%Q) as ->
    by (by destruct (extract_skeleton other)).
  assert (skeleton_diff (extract_skeleton other) []
          = if length (extract_skeleton other) =? 0 then 0%Q else 1%Q) as ->
    by (by destruct (extract_skeleton other)).
  destruct (length (extract_landmarks other) =? 0),
    (length (extract_skeleton other) =? 0); split; ring.
Qed.

Lemma diff_score_against_bare_witness :
  (diff_score [] doc_nested_body == 0 + 0.60)%Q
  ∧ (diff_score doc_nested_body [] == diff_score [] doc_nested_body)%Q.
Proof.
  apply (diff_score_against_bare [] doc_nested_body); reflexivity.
Defined.

(** X13.  The label follows the score: with the labels ranked from minor
    changes over significant modifications to a major rewrite, a lower
    score is never labelled more severely than a higher one. *)
Theorem interpret_score_monotone (s1 s2 : Q) :
  (s1 <= s2)%Q →
  severity (interpret_score s1) ≤ severity (interpret_score s2).
Proof.
  intros Hle. unfold interpret_score.
  destruct (Qlt_le_dec 0.40 s1), (Qlt_le_dec 0.40 s2); try lra;
    destruct (Qlt_le_dec 0.15 s1), (Qlt_le_dec 0.15 s2); try lra;
    vm_compute; lia.
Qed.

Lemma interpret_score_monotone_witness :
  interpret_score 0.2 = "Significant layout modifications detected"
  ∧ interpret_score 0.5 = "Major structural rewrite detected"
  ∧ severity (interpret_score 0.2) ≤ severity (interpret_score 0.5).
Proof.
  split_and!; [reflexivity..|].
  apply (interpret_score_monotone 0.2 0.5). discriminate.
Defined.

(** X14.  A document compared with itself is always labelled as a minor
    change. *)
Theorem interpret_score_self soup :
  interpret_score (diff_score soup soup) = "Minor structural changes".
Proof.
  assert (diff_score soup soup == 0)%Q as Hz.
  { unfold diff_score. rewrite landmark_diff_self, skeleton_diff_self. ring. }
  unfold interpret_score.
  destruct (Qlt_le_dec 0.40 (diff_score soup soup)); [lra|].
  destruct (Qlt_le_dec 0.15 (diff_score soup soup)); [lra|done].
Qed.

End combined_score.

Section other_attributes.
Import bs4 differ.
Implicit Types (soup cs : list node) (c : node).

Lemma keep_id_class_Tag nm attrs cs :
  keep_id_class (Tag nm attrs cs)
  = Tag nm (filter (λ kv, kv.1 = "id" ∨ kv.1 = "class") attrs)
      (keep_id_class <$> cs).
Proof.
  reflexivity.
Qed.

Lemma is_tag_keep c : is_tag (keep_id_class c) = is_tag c.
Proof. by destruct c. Qed.

Lemma name_keep c : name (keep_id_class c) = name c.
Proof. by destruct c. Qed.

Lemma has_name_keep names c :
  has_name names (keep_id_class c) = has_name names c.
Proof. by destruct c. Qed.

Lemma ignored_keep c : ignored (keep_id_class c) = ignored c.
Proof. unfold ignored. by rewrite is_tag_keep, name_keep. Qed.

Lemma get_keep c key :
  key = "id" ∨ key = "class" → get (keep_id_class c) key = get c key.
Proof.
  intros Hkey. destruct c as [nm attrs cs|t]; [|done]. cbn [keep_id_class get].
  apply option_eq. intros v. rewrite map_lookup_filter_Some. cbn [fst].
  tauto.
Qed.

Lemma count_tags_keep cs :
  length (filter (λ c, is_tag c = true) (keep_id_class <$> cs))
  = length (filter (λ c, is_tag c = true) cs).
Proof.
  induction cs as [|c cs IH]; [done|].
  rewrite fmap_cons, !filter_cons, is_tag_keep.
  destruct (decide (is_tag c = true)); cbn [length]; by rewrite IH.
Qed.

Lemma make_profile_keep c : _make_profile (keep_id_class c) = _make_profile c.
Proof.
  unfold _make_profile.
  rewrite name_keep, !get_keep by auto.
  f_equal. destruct c as [nm attrs cs|t]; [|done].
  rewrite keep_id_class_Tag. cbn [children]. apply count_tags_keep.
Qed.

Lemma children_keep c :
  children (keep_id_class c) = keep_id_class <$> children c.
Proof.
  destruct c as [nm attrs cs|t]; [|done]. by rewrite keep_id_class_Tag.
Qed.

Lemma family_keep c : family (keep_id_class c) = family c.
Proof.
  unfold family. rewrite ignored_keep, make_profile_keep, children_keep.
  destruct (ignored c); [done|]. f_equal.
  induction (children c) as [|g gs IH]; [done|].
  rewrite fmap_cons, !filter_cons, ignored_keep.
  destruct (decide (ignored g = false)); [|done].
  by rewrite !fmap_cons, make_profile_keep, IH.
Qed.

Lemma all_nodes_keep cs :
  (descendants (keep_id_class <$> cs)).*2
  = keep_id_class <$> (descendants cs).*2.
Proof.
  induction cs as [|t cs IH|nm attrs ch cs IHch IHcs] using forest_ind.
  - done.
  - rewrite fmap_cons, !all_nodes_cons, IH. done.
  - rewrite fmap_cons, !all_nodes_cons, children_keep. cbn [children].
    by rewrite IHch, IHcs, fmap_cons, fmap_app.
Qed.

Lemma filter_nodes_keep names cs :
  filter (λ n, has_name names n = true)
    ((descendants (keep_id_class <$> cs)).*2)
  = keep_id_class
    <$> filter (λ n, has_name names n = true) ((descendants cs).*2).
Proof.
  rewrite all_nodes_keep. generalize ((descendants cs).*2). intros l.
  induction l as [|n l IH]; [done|].
  rewrite fmap_cons, !filter_cons, has_name_keep.
  destruct (decide (has_name names n = true)); by rewrite ?fmap_cons, IH.
Qed.

Lemma extract_landmarks_keep soup :
  extract_landmarks (keep_id_class <$> soup) = extract_landmarks soup.
Proof.
  rewrite !extract_landmarks_nodes, filter_nodes_keep.
  generalize (filter (λ n, has_name LANDMARK_TAGS n = true)
                ((descendants soup).*2)).
  intros l. induction l as [|n l IH]; [done|].
  rewrite fmap_cons, !filter_cons, is_tag_keep.
  destruct (decide (is_tag n = true)); by rewrite ?fmap_cons, ?name_keep, IH.
Qed.

Lemma extract_skeleton_keep soup :
  extract_skeleton (keep_id_class <$> soup) = extract_skeleton soup.
Proof.
  rewrite !extract_skeleton_flat, !find_nodes, filter_nodes_keep.
  generalize (filter (λ n, has_name ["body"] n = true)
                ((descendants soup).*2)).
  intros [|body l]; [done|]. cbn [fmap list_fmap head].
  rewrite children_keep.
  induction (children body) as [|c cs IH]; [done|].
  rewrite fmap_cons. cbn [flat_map]. by rewrite family_keep, IH.
Qed.

(** X15.  Of the attributes of an element only [id] and [class] matter:
    with every other attribute removed, at every depth, a document yields
    the same landmarks and the same skeleton, and so the same score against
    any other document, on either side. *)
Theorem only_id_and_class_matter soup :
  extract_landmarks (keep_id_class <$> soup) = extract_landmarks soup
  ∧ extract_skeleton (keep_id_class <$> soup) = extract_skeleton soup
  ∧ ∀ other,
      diff_score (keep_id_class <$> soup) other = diff_score soup other
      ∧ diff_score other (keep_id_class <$> soup) = diff_score other soup.
Proof.
  split_and!.
  - apply extract_landmarks_keep.
  - apply extract_skeleton_keep.
  - intros other. unfold diff_score.
    by rewrite extract_landmarks_keep, extract_skeleton_keep.
Qed.

End other_attributes.
